(** * kids-draw-3d: the mesh service (backend/services/mesh_service.py)

    A shallow embedding of the mesh service and the properties its
    specification states about it.

    Conventions of the embedding.
    - numpy's float64 coordinates are idealised as exact rationals [Q];
      equalities between coordinates are stated up to [Qeq] ([==]).
      Rounding, overflow and NaN are outside the model.
    - A trimesh object is a record of its class, its vertex buffer and its
      face buffer.  The buffer-level operations the service relies on
      ([bounds], [apply_scale], [concatenate], the in-place translation) are
      written out; the operations whose result is decided inside trimesh
      (file parsing and STL encoding, centroid, topology queries, the repair
      routines) are fields of [Trimesh_lib].
    - Python exceptions are values of [Exn]; a call either returns or raises
      ([Res]).  A mutating library call returns the state it left the mesh in
      together with the exception it raised, if any.
    - The file system is a finite map from paths to file contents.  Writing
      a file opens it first, which empties it: an export whose encoding
      raises leaves an empty file behind. *)

From stdpp Require Import gmap strings.
From Stdlib Require Import QArith Qminmax Qabs Qfield List Bool Lia Morphisms Setoid.
From Stdlib Require Import Ascii Sorted Permutation.
From Stdlib Require Lqa.
Import ListNotations.

Local Open Scope Q_scope.

(** ** Data model *)

Definition V3 : Type := Q * Q * Q.
Definition Face : Type := nat * nat * nat.
Definition Path : Type := string.

(** The classes of object [trimesh.load] can hand back as a single geometry. *)
Inductive GeomClass := Trimesh | PointCloud | Path3D.

Record Geometry := mkGeometry {
  class : GeomClass;
  vertices : list V3;
  faces : list Face
}.

(** [trimesh.load] returns either one geometry or a [Scene], whose
    [geometry] attribute is an (insertion-ordered) dict from names to
    geometries. *)
Inductive Loaded :=
| Geom (g : Geometry)
| Scene (geometry : list (string * Geometry)).

Inductive Exn :=
| FileNotFoundError (path : Path)
| ValueError (msg : string)
| TypeError (msg : string)
| LibraryError (cls msg : string).

Inductive Res (A : Type) :=
| Ret (a : A)
| Raise (e : Exn).
Arguments Ret {A} a.
Arguments Raise {A} e.

(** [isinstance(g, trimesh.Trimesh)] *)
Definition isinstance_Trimesh (g : Geometry) : bool :=
  match class g with Trimesh => true | _ => false end.

(** ** Vectors *)

Definition vx (v : V3) : Q := fst (fst v).
Definition vy (v : V3) : Q := snd (fst v).
Definition vz (v : V3) : Q := snd v.

Definition vscale (s : Q) (v : V3) : V3 := (s * vx v, s * vy v, s * vz v).
Definition vsub (v c : V3) : V3 := (vx v - vx c, vy v - vy c, vz v - vz c).
Definition vadd (v c : V3) : V3 := (vx v + vx c, vy v + vy c, vz v + vz c).

Definition V3eq (u v : V3) : Prop := vx u == vx v /\ vy u == vy v /\ vz u == vz v.

(** [np.max] of a 3-vector. *)
Definition np_max (v : V3) : Q := Qmax (Qmax (vx v) (vy v)) (vz v).

(** ** Buffer-level trimesh operations *)

Definition face_mem (i : nat) (f : Face) : bool :=
  let '(a, b, c) := f in Nat.eqb a i || Nat.eqb b i || Nat.eqb c i.

(** [Trimesh.referenced_vertices]: the mask of vertices some face refers to. *)
Definition referenced_vertices (g : Geometry) : list bool :=
  map (fun i => existsb (face_mem i) (faces g)) (seq 0 (length (vertices g))).

(** [vertices[mask]] *)
Fixpoint mask_select {A : Type} (l : list A) (mask : list bool) : list A :=
  match l, mask with
  | x :: l', b :: mask' => if b then x :: mask_select l' mask' else mask_select l' mask'
  | _, _ => []
  end.

(** The points the bounding box ranges over: for a [Trimesh] only the
    vertices referenced by a face, for the other classes every vertex. *)
Definition bounded_points (g : Geometry) : list V3 :=
  match class g with
  | Trimesh => mask_select (vertices g) (referenced_vertices g)
  | _ => vertices g
  end.

Fixpoint qmin_list (x : Q) (l : list Q) : Q :=
  match l with [] => x | y :: r => Qmin x (qmin_list y r) end.
Fixpoint qmax_list (x : Q) (l : list Q) : Q :=
  match l with [] => x | y :: r => Qmax x (qmax_list y r) end.

(** [points.min(axis=0)], [points.max(axis=0)] *)
Definition min_corner (p : V3) (ps : list V3) : V3 :=
  (qmin_list (vx p) (map vx ps), qmin_list (vy p) (map vy ps), qmin_list (vz p) (map vz ps)).
Definition max_corner (p : V3) (ps : list V3) : V3 :=
  (qmax_list (vx p) (map vx ps), qmax_list (vy p) (map vy ps), qmax_list (vz p) (map vz ps)).

(** [mesh.bounds]: [None] when there is no point to bound. *)
Definition bounds (g : Geometry) : option (V3 * V3) :=
  match bounded_points g with
  | [] => None
  | p :: ps => Some (min_corner p ps, max_corner p ps)
  end.

(** [np.fliplr] on the face buffer. *)
Definition fliplr (f : Face) : Face := let '(a, b, c) := f in (c, b, a).

(** [mesh.apply_scale(s)]: every vertex is multiplied by [s]; a transform
    of negative determinant also reverses every face. *)
Definition apply_scale (s : Q) (g : Geometry) : Geometry :=
  {| class := class g;
     vertices := map (vscale s) (vertices g);
     faces := if Qlt_le_dec s 0 then map fliplr (faces g) else faces g |}.

(** [mesh.vertices -= c] *)
Definition translate (c : V3) (g : Geometry) : Geometry :=
  {| class := class g;
     vertices := map (fun v => vsub v c) (vertices g);
     faces := faces g |}.

Definition shift_face (offset : nat) (f : Face) : Face :=
  let '(a, b, c) := f in ((a + offset)%nat, (b + offset)%nat, (c + offset)%nat).

(** [trimesh.util.concatenate]: the vertex buffers are stacked and each face
    buffer is offset by the number of vertices stacked before it. *)
Fixpoint concatenate_from (offset : nat) (meshes : list Geometry) : list V3 * list Face :=
  match meshes with
  | [] => ([], [])
  | m :: rest =>
      let '(vs, fs) := concatenate_from (offset + length (vertices m))%nat rest in
      (vertices m ++ vs, map (shift_face offset) (faces m) ++ fs)
  end.

Definition concatenate (meshes : list Geometry) : Geometry :=
  let '(vs, fs) := concatenate_from 0 meshes in
  {| class := Trimesh; vertices := vs; faces := fs |}.

(** Every face index is in range. *)
Definition face_ok (n : nat) (f : Face) : Prop :=
  let '(a, b, c) := f in (a < n)%nat /\ (b < n)%nat /\ (c < n)%nat.
Definition mesh_valid (g : Geometry) : Prop :=
  Forall (face_ok (length (vertices g))) (faces g).

(** The triangle soup of a mesh: the three corner positions of each face. *)
Definition origin : V3 := (0, 0, 0).
Definition Triangle : Type := V3 * V3 * V3.
Definition triangle_of (vs : list V3) (f : Face) : Triangle :=
  let '(a, b, c) := f in (nth a vs origin, nth b vs origin, nth c vs origin).
Definition triangles (g : Geometry) : list Triangle :=
  map (triangle_of (vertices g)) (faces g).

(** ** The trimesh interface *)

Record Trimesh_lib := mkLib {
  (** contents of a file *)
  File : Type;
  (** [trimesh.load] on the contents of an existing file *)
  parse : File -> Exn + Loaded;
  (** the bytes [mesh.export(file_type='stl')] writes *)
  export_stl : Geometry -> Exn + File;
  (** a file that has just been opened for writing: no bytes *)
  empty_file : File;
  (** [mesh.centroid] *)
  centroid : Geometry -> V3;
  is_watertight : Geometry -> bool;
  is_winding_consistent : Geometry -> bool;
  volume : Geometry -> Q;
  (** [trimesh.repair.*] and the clean-up methods mutate the mesh in place:
      they return the state they leave it in and the exception they raise,
      if any *)
  fix_normals : Geometry -> Geometry * option Exn;
  fix_inversion : Geometry -> Geometry * option Exn;
  fix_winding : Geometry -> Geometry * option Exn;
  fill_holes : Geometry -> Geometry * option Exn;
  process : Geometry -> Geometry * option Exn;
  merge_vertices : Geometry -> Geometry * option Exn;
  nondegenerate_faces : Geometry -> Exn + list bool;
  update_faces : list bool -> Geometry -> Geometry * option Exn
}.

(** ** A state-and-exception monad

    [M S A]: a computation over a state [S] that returns an [A] or raises. *)

Definition M (S A : Type) : Type := S -> Res A * S.

Definition ret {S A : Type} (a : A) : M S A := fun s => (Ret a, s).
Definition raise {S A : Type} (e : Exn) : M S A := fun s => (Raise e, s).
Definition bind {S A B : Type} (m : M S A) (k : A -> M S B) : M S B :=
  fun s => match m s with
           | (Ret a, s') => k a s'
           | (Raise e, s') => (Raise e, s')
           end.

(** [try: body / except Exception: handler] *)
Definition try_except {S : Type} (body handler : M S unit) : M S unit :=
  fun s => match body s with
           | (Ret a, s') => (Ret a, s')
           | (Raise _, s') => handler s'
           end.

Definition pass {S : Type} : M S unit := ret tt.

Definition lift {S A : Type} (r : Res A) : M S A := fun s => (r, s).

Notation "x <- m ;; k" := (bind m (fun x => k))
  (at level 100, m at next level, right associativity).
Notation "m ;; k" := (bind m (fun _ => k))
  (at level 100, right associativity).

(** The calls into trimesh that the repair pass can make.  The pass keeps a
    ghost record of the calls it made, each with the mesh it was made on,
    used to state which steps ran and on what. *)
Inductive Call :=
| CallFixNormals | CallFixInversion | CallFixWinding
| CallIsWatertight | CallFillHoles
| CallProcess | CallMergeVertices | CallNondegenerateFaces | CallUpdateFaces.

(** The local variable [mesh] of [_optimize_mesh_sync] and the calls made
    on it so far. *)
Record RepairState := mkRepairState {
  mesh : Geometry;
  calls : list (Call * Geometry)
}.

Definition Call_eqb (a b : Call) : bool :=
  match a, b with
  | CallFixNormals, CallFixNormals | CallFixInversion, CallFixInversion
  | CallFixWinding, CallFixWinding | CallIsWatertight, CallIsWatertight
  | CallFillHoles, CallFillHoles | CallProcess, CallProcess
  | CallMergeVertices, CallMergeVertices
  | CallNondegenerateFaces, CallNondegenerateFaces
  | CallUpdateFaces, CallUpdateFaces => true
  | _, _ => false
  end.

Definition called (c : Call) (s : RepairState) : bool :=
  existsb (Call_eqb c) (map fst (calls s)).

(** The dict [check_printability] returns. *)
Module report.
Record t := mk {
  is_watertight : bool;
  is_winding_consistent : bool;
  volume_mm3 : option Q;
  dimensions_mm : V3;
  face_count : nat;
  vertex_count : nat;
  printable : bool
}.
End report.

Inductive PrintabilityResult :=
| ErrorDict (error : string)
| ReportDict (r : report.t).

(** ** The service *)

Section MeshService.

Variable L : Trimesh_lib.

Abbreviation Disk := (gmap string (File L)).

(** [trimesh.load(str(path))] *)
Definition trimesh_load (path : Path) : M Disk Loaded :=
  fun disk =>
    match disk !! path with
    | None => (Raise (FileNotFoundError path), disk)
    | Some f =>
        match parse L f with
        | inl e => (Raise e, disk)
        | inr x => (Ret x, disk)
        end
    end.

(** [mesh.export(str(path), file_type='stl')]: the file is opened for
    writing, which empties it, and then the mesh is encoded; when the
    encoding raises, the empty file stays. *)
Definition export (g : Geometry) (path : Path) : M Disk unit :=
  fun disk =>
    match export_stl L g with
    | inl e => (Raise e, <[path := empty_file L]> disk)
    | inr f => (Ret tt, <[path := f]> disk)
    end.

(** Lines 54-64 of [_convert_to_stl_sync]: a [Scene] is replaced by the
    concatenation of its [Trimesh] members. *)
Definition flatten_scene (geometry : list (string * Geometry)) : Res Geometry :=
  let geometries := List.filter isinstance_Trimesh (map snd geometry) in
  match geometries with
  | _ :: _ => Ret (concatenate geometries)
  | [] => Raise (ValueError "场景中没有有效的网格几何体")
  end.

Definition flatten (loaded : Loaded) : Res Geometry :=
  match loaded with
  | Scene geometry => flatten_scene geometry
  | Geom g => Ret g
  end.

(** Lines 68-72: scale so that the largest bounding-box extent is 50. *)
Definition scale_to_print_size (g : Geometry) : Res Geometry :=
  match bounds g with
  | None => Raise (TypeError "'NoneType' object is not subscriptable")
  | Some (lo, hi) =>
      let max_dim := np_max (vsub hi lo) in
      if Qlt_le_dec 0 max_dim then
        let scale_factor := 50 / max_dim in
        Ret (apply_scale scale_factor g)
      else Ret g
  end.

(** Line 75: [mesh.vertices -= mesh.centroid] *)
Definition center (g : Geometry) : Geometry := translate (centroid L g) g.

Definition _convert_to_stl_sync (input_path output_path : Path) : M Disk unit :=
  loaded <- trimesh_load input_path ;;
  g <- lift (flatten loaded) ;;
  g <- lift (scale_to_print_size g) ;;
  export (center g) output_path.

Definition convert_to_stl (model_path output_dir : Path) (task_id : string) : M Disk Path :=
  let output_path := (output_dir ++ "/" ++ task_id ++ "_model.stl")%string in
  _convert_to_stl_sync model_path output_path ;;
  ret output_path.

(** A mutating call on the local mesh. *)
Definition mutate (c : Call) (op : Geometry -> Geometry * option Exn) : M RepairState unit :=
  fun s =>
    let '(g, r) := op (mesh s) in
    let s' := {| mesh := g; calls := calls s ++ [(c, mesh s)] |} in
    match r with
    | None => (Ret tt, s')
    | Some e => (Raise e, s')
    end.

(** A call on the local mesh that returns a value and leaves it unchanged. *)
Definition query {A : Type} (c : Call) (q : Geometry -> Exn + A) : M RepairState A :=
  fun s =>
    let s' := {| mesh := mesh s; calls := calls s ++ [(c, mesh s)] |} in
    match q (mesh s) with
    | inl e => (Raise e, s')
    | inr a => (Ret a, s')
    end.

(** Lines 112-137: the three guarded blocks of the repair pass. *)
Definition fix_orientation : M RepairState unit :=
  try_except
    (mutate CallFixNormals (fix_normals L) ;;
     mutate CallFixInversion (fix_inversion L) ;;
     mutate CallFixWinding (fix_winding L))
    pass.

Definition fill_holes_if_open : M RepairState unit :=
  try_except
    (watertight <- query CallIsWatertight (fun g => inr (is_watertight L g)) ;;
     if negb watertight then mutate CallFillHoles (fill_holes L) else pass)
    pass.

Definition cleanup : M RepairState unit :=
  try_except
    (mutate CallProcess (process L))
    (try_except
       (mutate CallMergeVertices (merge_vertices L) ;;
        mask <- query CallNondegenerateFaces (nondegenerate_faces L) ;;
        mutate CallUpdateFaces (update_faces L mask))
       pass).

Definition repair : M RepairState unit :=
  fix_orientation ;; fill_holes_if_open ;; cleanup.

Definition _optimize_mesh_sync (stl_path : Path) : M Disk unit :=
  loaded <- trimesh_load stl_path ;;
  match loaded with
  | Geom g =>
      if isinstance_Trimesh g then
        match repair {| mesh := g; calls := [] |} with
        | (Ret _, s) => export (mesh s) stl_path
        | (Raise e, _) => raise e
        end
      else ret tt
  | Scene _ => ret tt
  end.

Definition optimize_mesh (stl_path : Path) : M Disk Path :=
  _optimize_mesh_sync stl_path ;;
  ret stl_path.

Definition printability (g : Geometry) : Res PrintabilityResult :=
  match bounds g with
  | None => Raise (TypeError "'NoneType' object is not subscriptable")
  | Some (lo, hi) =>
      let dimensions := vsub hi lo in
      Ret (ReportDict
        {| report.is_watertight := is_watertight L g;
           report.is_winding_consistent := is_winding_consistent L g;
           report.volume_mm3 := if is_watertight L g then Some (volume L g) else None;
           report.dimensions_mm := dimensions;
           report.face_count := length (faces g);
           report.vertex_count := length (vertices g);
           report.printable := is_watertight L g && is_winding_consistent L g |})
  end.

Definition check_printability (stl_path : Path) : M Disk PrintabilityResult :=
  loaded <- trimesh_load stl_path ;;
  match loaded with
  | Geom g =>
      if isinstance_Trimesh g then lift (printability g)
      else ret (ErrorDict "无效的网格文件")
  | Scene _ => ret (ErrorDict "无效的网格文件")
  end.

Definition scale_model (stl_path : Path) (scale_percent : Q) : M Disk Path :=
  loaded <- trimesh_load stl_path ;;
  match loaded with
  | Geom g =>
      if isinstance_Trimesh g then
        let scale_factor := scale_percent / 100 in
        export (apply_scale scale_factor g) stl_path
      else ret tt
  | Scene _ => ret tt
  end ;;
  ret stl_path.

End MeshService.

(** Bounding-box extents, as [check_printability] reports them. *)
Definition dimensions (g : Geometry) : option V3 :=
  match bounds g with
  | Some (lo, hi) => Some (vsub hi lo)
  | None => None
  end.

Definition same_dimensions (a b : option V3) : Prop :=
  match a, b with
  | Some u, Some v => V3eq u v
  | None, None => True
  | _, _ => False
  end.

(** ** A reference implementation of the trimesh interface

    Small executable stand-ins for the library, used to run the service on
    concrete meshes. *)

Definition dot (u v : V3) : Q := vx u * vx v + vy u * vy v + vz u * vz v.
Definition cross (u v : V3) : V3 :=
  (vy u * vz v - vz u * vy v, vz u * vx v - vx u * vz v, vx u * vy v - vy u * vx v).

Definition vsum (l : list V3) : V3 := fold_right vadd origin l.
Definition qsum (l : list Q) : Q := fold_right Qplus 0 l.

Definition triangle_center (t : Triangle) : V3 :=
  let '(a, b, c) := t in vscale (1 / 3) (vadd (vadd a b) c).

(** Half the norm of the cross product of two edges. *)
Definition triangle_area (norm : V3 -> Q) (t : Triangle) : Q :=
  let '(a, b, c) := t in norm (cross (vsub b a) (vsub c a)) / 2.

(** [Trimesh.centroid]: the average of the triangle centres weighted by
    triangle area, and their plain mean when every area is zero. *)
Definition area_weighted_centroid (norm : V3 -> Q) (g : Geometry) : V3 :=
  let ts := triangles g in
  let total := qsum (map (triangle_area norm) ts) in
  if Qeq_bool total 0 then
    vscale (1 / inject_Z (Z.of_nat (length ts))) (vsum (map triangle_center ts))
  else
    vscale (1 / total)
      (vsum (map (fun t => vscale (triangle_area norm t) (triangle_center t)) ts)).

(** A rational stand-in for the Euclidean norm. *)
Definition taxicab (v : V3) : Q := Qabs (vx v) + Qabs (vy v) + Qabs (vz v).

(** Signed volume: a sixth of the sum of the triple products. *)
Definition signed_volume (g : Geometry) : Q :=
  qsum (map (fun t : Triangle => let '(a, b, c) := t in dot a (cross b c)) (triangles g)) / 6.

Definition directed_edges (f : Face) : list (nat * nat) :=
  let '(a, b, c) := f in [(a, b); (b, c); (c, a)].

Definition edge_eqb (e1 e2 : nat * nat) : bool :=
  Nat.eqb (fst e1) (fst e2) && Nat.eqb (snd e1) (snd e2).
Definition edge_rev (e : nat * nat) : nat * nat := (snd e, fst e).

Definition count_edge (e : nat * nat) (es : list (nat * nat)) : nat :=
  length (List.filter (edge_eqb e) es).

(** Every edge borders exactly two faces. *)
Definition edges_closed (g : Geometry) : bool :=
  let es := flat_map directed_edges (faces g) in
  forallb (fun e => Nat.eqb (count_edge e es + count_edge (edge_rev e) es) 2) es.

(** Faces sharing an edge traverse it in opposite directions. *)
Definition edges_opposed (g : Geometry) : bool :=
  let es := flat_map directed_edges (faces g) in
  forallb (fun e => Nat.leb (count_edge e es) 1) es.

Definition face_distinct (f : Face) : bool :=
  let '(a, b, c) := f in negb (Nat.eqb a b) && negb (Nat.eqb b c) && negb (Nat.eqb a c).

Definition set_faces (fs : list Face) (g : Geometry) : Geometry :=
  {| class := class g; vertices := vertices g; faces := fs |}.

(** What the reference implementation keeps in a file: the triangles of an
    STL file, the object a scene-graph format decodes to, or bytes no
    reader accepts. *)
Inductive RefFile :=
| StlFile (tris : list Triangle)
| ModelFile (content : Loaded)
| Garbage.

Definition corners (t : Triangle) : list V3 := let '(a, b, c) := t in [a; b; c].

(** The mesh an STL reader builds: three fresh vertices per triangle. *)
Definition mesh_of_triangles (tris : list Triangle) : Geometry :=
  {| class := Trimesh;
     vertices := flat_map corners tris;
     faces := map (fun i => (3 * i, 3 * i + 1, 3 * i + 2)%nat) (seq 0 (length tris)) |}.

(** An STL file without triangles loads as an empty scene. *)
Definition ref_parse (f : RefFile) : Exn + Loaded :=
  match f with
  | StlFile [] => inr (Scene [])
  | StlFile tris => inr (Geom (mesh_of_triangles tris))
  | ModelFile content => inr content
  | Garbage => inl (ValueError "file_type not supported")
  end.

(** Only a [Trimesh] with at least one face can be encoded. *)
Definition ref_export_stl (g : Geometry) : Exn + RefFile :=
  if isinstance_Trimesh g then
    match faces g with
    | [] => inl (ValueError "cannot export an empty mesh")
    | _ :: _ => inr (StlFile (triangles g))
    end
  else inl (ValueError "export type not supported").

Definition ref_lib : Trimesh_lib :=
  {| File := RefFile;
     parse := ref_parse;
     export_stl := ref_export_stl;
     empty_file := Garbage;
     centroid := area_weighted_centroid taxicab;
     is_watertight := edges_closed;
     is_winding_consistent := edges_opposed;
     volume := signed_volume;
     fix_normals := fun g => (g, None);
     fix_inversion := fun g =>
       if Qlt_le_dec (signed_volume g) 0 then (set_faces (map fliplr (faces g)) g, None)
       else (g, None);
     fix_winding := fun g => (g, None);
     fill_holes := fun g => (g, None);
     process := fun g => (set_faces (List.filter face_distinct (faces g)) g, None);
     merge_vertices := fun g => (g, None);
     nondegenerate_faces := fun g => inr (map face_distinct (faces g));
     update_faces := fun mask g => (set_faces (mask_select (faces g) mask) g, None) |}.

(** A trimesh whose [repair] module has no [fix_normals]: the case the
    comment on the first guarded block of [_optimize_mesh_sync] is about. *)
Definition legacy_lib : Trimesh_lib :=
  {| File := RefFile;
     parse := ref_parse;
     export_stl := ref_export_stl;
     empty_file := Garbage;
     centroid := area_weighted_centroid taxicab;
     is_watertight := edges_closed;
     is_winding_consistent := edges_opposed;
     volume := signed_volume;
     fix_normals := fun g =>
       (g, Some (LibraryError "AttributeError"
                   "module 'trimesh.repair' has no attribute 'fix_normals'"));
     fix_inversion := fix_inversion ref_lib;
     fix_winding := fix_winding ref_lib;
     fill_holes := fill_holes ref_lib;
     process := process ref_lib;
     merge_vertices := merge_vertices ref_lib;
     nondegenerate_faces := nondegenerate_faces ref_lib;
     update_faces := update_faces ref_lib |}.

(** *** Sample meshes *)

(** A tetrahedron with a corner at the origin, faces wound outwards. *)
Definition tetra : Geometry :=
  {| class := Trimesh;
     vertices := [(0, 0, 0); (4, 0, 0); (0, 2, 0); (0, 0, 1)];
     faces := [(0, 2, 1); (0, 1, 3); (0, 3, 2); (1, 2, 3)]%nat |}.

(** The same tetrahedron with one face missing. *)
Definition open_tetra : Geometry :=
  {| class := Trimesh;
     vertices := vertices tetra;
     faces := [(0, 2, 1); (0, 1, 3); (0, 3, 2)]%nat |}.

(** A single triangle. *)
Definition sheet : Geometry :=
  {| class := Trimesh;
     vertices := [(1, 1, 0); (3, 1, 0); (1, 2, 0)];
     faces := [(0, 1, 2)]%nat |}.

(** A mesh whose vertices all coincide. *)
Definition speck : Geometry :=
  {| class := Trimesh;
     vertices := [(7, 7, 7); (7, 7, 7); (7, 7, 7)];
     faces := [(0, 1, 2)]%nat |}.


Definition cloud : Geometry :=
  {| class := PointCloud; vertices := [(0, 0, 0); (1, 1, 1)]; faces := [] |}.

(** ** Laws of the trimesh interface

    Properties of the library that some statements about the service rest
    on. *)


(** A valid [Trimesh] with at least one face can be written as STL, and
    the file keeps its triangles: reading it back gives a valid [Trimesh]
    with the same triangles.  Nothing is asked about a mesh without
    faces. *)
Definition stl_round_trip (L : Trimesh_lib) : Prop :=
  forall (g : Geometry),
    isinstance_Trimesh g = true -> mesh_valid g -> faces g <> [] ->
    exists f g', export_stl L g = inr f /\
                 parse L f = inr (Geom g') /\
                 isinstance_Trimesh g' = true /\ mesh_valid g' /\
                 triangles g' = triangles g.


(** [scaled_bounds s b b']: the bounding box [b'] is the bounding box [b]
    scaled by [s]. *)
Definition scaled_bounds (s : Q) (b b' : option (V3 * V3)) : Prop :=
  match b, b' with
  | Some (lo, hi), Some (lo', hi') => V3eq lo' (vscale s lo) /\ V3eq hi' (vscale s hi)
  | None, None => True
  | _, _ => False
  end.

(** [only_calls allowed l]: the log [l] holds calls from [allowed] only. *)
Definition only_calls (allowed : list Call) (l : list (Call * Geometry)) : bool :=
  forallb (fun c => existsb (Call_eqb c) allowed) (map fst l).

Definition logged (c : Call) (l : list (Call * Geometry)) : bool :=
  existsb (Call_eqb c) (map fst l).

(** ** The storage janitor (main.py)

    What [cleanup_old_files] sees of the output directory: the entries
    [rglob] yields, in the order it yields them, each with the result of
    [is_file] and [stat], and whether [unlink] on it succeeds. *)

Record Node := mkNode {
  node_path : Path;
  is_file : bool;
  st_mtime : Q;
  st_size : Z;
  unlink_ok : bool
}.

(** The dicts [cleanup_old_files] collects in [files]. *)
Module info.
Record t := mk {
  path : Path;
  mtime : Q;
  size : Z
}.
End info.

Definition get_directory_size (directory : list Node) : Z :=
  fold_left (fun total_size n => if is_file n then (total_size + st_size n)%Z else total_size)
            directory 0%Z.

(** [path.unlink()]: removes the entry, or raises ([None]) when there is no
    such file or the file system refuses. *)
Fixpoint unlink (p : Path) (directory : list Node) : option (list Node) :=
  match directory with
  | [] => None
  | n :: rest =>
      if String.eqb (node_path n) p then
        if is_file n && unlink_ok n then Some rest else None
      else
        match unlink p rest with
        | Some rest' => Some (n :: rest')
        | None => None
        end
  end.

Definition collect_files (directory : list Node) : list info.t :=
  map (fun n => {| info.path := node_path n; info.mtime := st_mtime n; info.size := st_size n |})
      (List.filter is_file directory).


(** [files.sort(key=lambda x: x["mtime"])].  Python's sort is stable; a
    stable insertion sort computes the same list. *)
Fixpoint insert_by_mtime (x : info.t) (l : list info.t) : list info.t :=
  match l with
  | [] => [x]
  | y :: l' =>
      if Qle_bool (info.mtime x) (info.mtime y) then x :: l
      else y :: insert_by_mtime x l'
  end.

Definition sort_by_mtime (l : list info.t) : list info.t :=
  fold_right insert_by_mtime [] l.

(** The [while current_size > max_size and files] loop; it returns the
    directory it leaves, [deleted_count] and [current_size]. *)
Fixpoint cleanup_loop (max_size : Z) (files : list info.t) (current_size : Z)
    (deleted_count : nat) (directory : list Node) : list Node * nat * Z :=
  match files with
  | [] => (directory, deleted_count, current_size)
  | oldest :: files' =>
      if (max_size <? current_size)%Z then
        match unlink (info.path oldest) directory with
        | Some directory' =>
            cleanup_loop max_size files' (current_size - info.size oldest)%Z
                         (S deleted_count) directory'
        | None => cleanup_loop max_size files' current_size deleted_count directory
        end
      else (directory, deleted_count, current_size)
  end.

Definition cleanup_old_files (directory : list Node) (max_size : Z) : list Node * nat * Z :=
  let files := sort_by_mtime (collect_files directory) in
  let current_size := fold_left (fun acc f => (acc + info.size f)%Z) files 0%Z in
  cleanup_loop max_size files current_size 0 directory.

Definition MAX_STORAGE_SIZE : Z := (5 * 1024 * 1024 * 1024)%Z.

(** The directory after the unlinks attempted on [files], in order, each
    failure being skipped. *)
Definition attempt_unlinks (files : list info.t) (directory : list Node) : list Node :=
  fold_left (fun d f => match unlink (info.path f) d with Some d' => d' | None => d end)
            files directory.

Definition mtime_le (a b : info.t) : Prop := info.mtime a <= info.mtime b.

Definition info_of (n : Node) : info.t :=
  {| info.path := node_path n; info.mtime := st_mtime n; info.size := st_size n |}.

(** ** Status and download endpoints (main.py) *)

Inductive HTTPException := mkHTTPException (status_code : Z) (detail : string).

Record FileResponse := mkFileResponse {
  response_path : Path;
  filename : string;
  media_type : string
}.

(** [directory / name], for a [name] of a single component (no ["/"] in
    it) under a [directory] written in normal form: there the join is the
    concatenation.  Names with a ["/"] are normalised by [pathlib] and are
    not covered. *)
Definition joinpath (directory : Path) (name : string) : Path :=
  (directory ++ "/" ++ name)%string.

Section Api.

Variable L : Trimesh_lib.
Variable OUTPUT_DIR : Path.

Definition download_stl (task_id : string) (disk : gmap string (File L)) :
    HTTPException + FileResponse :=
  let stl_path := joinpath OUTPUT_DIR (task_id ++ "_model.stl")%string in
  match disk !! stl_path with
  | None => inl (mkHTTPException 404 "模型文件不存在")
  | Some _ =>
      inr {| response_path := stl_path;
             filename := ("my-3d-model-" ++ task_id ++ ".stl")%string;
             media_type := "application/octet-stream" |}
  end.

(** The dict [get_status] returns, as the pair of its [status] and
    [message]. *)
Definition get_status (task_id : string) (disk : gmap string (File L)) : string * string :=
  let model_path := joinpath OUTPUT_DIR (task_id ++ "_model.glb")%string in
  let stl_path := joinpath OUTPUT_DIR (task_id ++ "_model.stl")%string in
  match disk !! stl_path with
  | Some _ => ("completed"%string, "模型已生成"%string)
  | None =>
      match disk !! model_path with
      | Some _ => ("processing"%string, "正在转换格式..."%string)
      | None => ("pending"%string, "等待处理..."%string)
      end
  end.

(** Lines 154-161 of [generate_3d]: convert the generated model, then
    repair the STL in place. *)
Definition convert_and_optimize (model_path : Path) (task_id : string) :
    M (gmap string (File L)) Path :=
  stl_path <- convert_to_stl L model_path OUTPUT_DIR task_id ;;
  optimize_mesh L stl_path ;;
  ret stl_path.

End Api.

(** Lines 134-137 of [generate_3d]: drop the prefix of a data URL. *)
Fixpoint split_on (sep : Ascii.ascii) (s : string) : list string :=
  match s with
  | EmptyString => [EmptyString]
  | String c s' =>
      if Ascii.eqb c sep then EmptyString :: split_on sep s'
      else match split_on sep s' with
           | [] => [String c EmptyString]
           | w :: ws => String c w :: ws
           end
  end.

Definition startswith (prefix s : string) : bool := String.prefix prefix s.

Definition strip_data_url (image_data : string) : Res string :=
  if startswith "data:image" image_data then
    match nth_error (split_on ","%char image_data) 1 with
    | Some payload => Ret payload
    | None => Raise (LibraryError "IndexError" "list index out of range")
    end
  else Ret image_data.

Fixpoint has_char (c : Ascii.ascii) (s : string) : bool :=
  match s with
  | EmptyString => false
  | String d s' => Ascii.eqb d c || has_char c s'
  end.

(** ** Image preparation and the fallback relief (ai_service.py) *)

(** Lines 52-57 of [generate_3d_from_image]: the side of the square canvas
    and the offset the drawing is pasted at. *)
Definition square_canvas (width height : Z) : Z * (Z * Z) :=
  let max_side := Z.max width height in
  (max_side, ((max_side - width) / 2, (max_side - height) / 2)%Z).

Definition target_size : Z := 512.

(** Lines 52-63 of [generate_3d_from_image]: the size of the image after
    squaring and resizing. *)
Definition prepared_size (width height : Z) : Z * Z :=
  let size :=
    if negb (width =? height)%Z then
      let max_side := Z.max width height in (max_side, max_side)
    else (width, height) in
  if negb (fst size =? target_size)%Z then (target_size, target_size) else size.

(** [np.array(image)] of a greyscale image: its shape and its pixels. *)
Record GrayImage := mkGrayImage {
  img_h : nat;
  img_w : nat;
  img_pixel : nat -> nat -> Z
}.

Definition relief_scale : Q := 1 # 10.
Definition max_height : Q := 10.

(** [height_map[y, x]]: normalised to 0..1 and inverted. *)
Definition height_map (img : GrayImage) (y x : nat) : Q :=
  1 - inject_Z (img_pixel img y x) / 255.

Definition coord (i : nat) : Q := inject_Z (Z.of_nat i) * relief_scale.

(** The vertex buffer of [_fallback_generate]: a bottom and a top vertex
    per pixel, row by row. *)
Definition fallback_vertices (img : GrayImage) : list V3 :=
  flat_map (fun y =>
    flat_map (fun x =>
      [ (coord x, coord y, 0);
        (coord x, coord y, height_map img y x * max_height) ])
      (seq 0 (img_w img)))
    (seq 0 (img_h img)).

(** The two triangles of the top face of the cell at column [x], row [y]. *)
Definition cell_faces (w y x : nat) : list Face :=
  let idx := ((y * w + x) * 2)%nat in
  [ (idx + 1, idx + 3, idx + 2 * w + 1)%nat;
    (idx + 3, idx + 2 * w + 3, idx + 2 * w + 1)%nat ].

Definition fallback_faces (img : GrayImage) : list Face :=
  flat_map (fun y => flat_map (cell_faces (img_w img) y) (seq 0 (img_w img - 1)))
           (seq 0 (img_h img - 1)).

(** The geometry the two lists describe, as they are handed to
    [trimesh.Trimesh], before the constructor processes them.  The
    constructor drops the vertices no face refers to and renumbers the
    faces; it keeps the triangles, and so the bounding box. *)
Definition fallback_mesh (img : GrayImage) : Geometry :=
  {| class := Trimesh; vertices := fallback_vertices img; faces := fallback_faces img |}.

(** The top vertex of the pixel at column [x], row [y]. *)
Definition top_vertex (img : GrayImage) (y x : nat) : V3 :=
  (coord x, coord y, height_map img y x * max_height).

(** A 3 by 2 image, dark in the middle of its upper row. *)
Definition sample_image : GrayImage :=
  {| img_h := 2; img_w := 3;
     img_pixel := fun y x => if (Nat.eqb y 0 && Nat.eqb x 1) then 0%Z else 255%Z |}.

(** An output directory over its quota. *)
Definition sample_directory : list Node :=
  [ {| node_path := "outputs/b_model.stl"; is_file := true; st_mtime := 20;
       st_size := 40%Z; unlink_ok := true |};
    {| node_path := "outputs/cache"; is_file := false; st_mtime := 1;
       st_size := 0%Z; unlink_ok := true |};
    {| node_path := "outputs/a_input.png"; is_file := true; st_mtime := 10;
       st_size := 30%Z; unlink_ok := false |};
    {| node_path := "outputs/a_model.glb"; is_file := true; st_mtime := 11;
       st_size := 50%Z; unlink_ok := true |};
    {| node_path := "outputs/c_model.stl"; is_file := true; st_mtime := 30;
       st_size := 25%Z; unlink_ok := true |} ].

(** * Properties *)

(** ** Scene flattening *)

Lemma shift_face_0 f : shift_face 0 f = f.
Proof. destruct f as [[a b] c]. unfold shift_face. by rewrite !Nat.add_0_r. Qed.

Lemma face_ok_mono n n' f : (n <= n')%nat -> face_ok n f -> face_ok n' f.
Proof. destruct f as [[a b] c]. unfold face_ok. lia. Qed.

Lemma face_ok_shift n k f : face_ok n f -> face_ok (k + n) (shift_face k f).
Proof. destruct f as [[a b] c]. unfold face_ok, shift_face. lia. Qed.

Lemma concatenate_from_faces_length off ms :
  length (snd (concatenate_from off ms)) =
  fold_right (fun m acc => (length (faces m) + acc)%nat) 0%nat ms.
Proof.
  revert off. induction ms as [|m ms IH]; intros off; simpl; [done|].
  specialize (IH (off + length (vertices m))%nat).
  destruct (concatenate_from _ ms) as [vs fs]. simpl in *.
  by rewrite length_app, length_map, IH.
Qed.

Lemma concatenate_from_valid off ms :
  Forall mesh_valid ms ->
  Forall (face_ok (off + length (fst (concatenate_from off ms))))
         (snd (concatenate_from off ms)).
Proof.
  revert off. induction ms as [|m ms IH]; intros off Hv; simpl; [constructor|].
  inversion Hv as [|? ? Hm Hms]; subst.
  specialize (IH (off + length (vertices m))%nat Hms).
  destruct (concatenate_from _ ms) as [vs fs]. simpl in *.
  rewrite length_app. apply Forall_app. split.
  - apply Forall_map. eapply Forall_impl; [|exact Hm].
    intros f Hf. simpl. eapply face_ok_mono; [|apply (face_ok_shift _ off _ Hf)]. lia.
  - eapply Forall_impl; [|exact IH].
    intros f Hf. eapply face_ok_mono; [|exact Hf]. lia.
Qed.

Lemma triangle_of_app_l vs ws f :
  face_ok (length vs) f -> triangle_of (vs ++ ws) f = triangle_of vs f.
Proof.
  destruct f as [[a b] c]. unfold face_ok, triangle_of. intros (Ha & Hb & Hc).
  by rewrite !app_nth1.
Qed.

Lemma triangle_of_app_r vs ws f :
  triangle_of (vs ++ ws) (shift_face (length vs) f) = triangle_of ws f.
Proof.
  destruct f as [[a b] c]. unfold triangle_of, shift_face.
  rewrite !app_nth2 by lia.
  by replace (a + length vs - length vs)%nat with a by lia;
     replace (b + length vs - length vs)%nat with b by lia;
     replace (c + length vs - length vs)%nat with c by lia.
Qed.

Lemma concatenate_valid ms : Forall mesh_valid ms -> mesh_valid (concatenate ms).
Proof.
  intros Hv. pose proof (concatenate_from_valid 0 ms Hv) as H.
  unfold concatenate, mesh_valid. destruct (concatenate_from 0 ms) as [vs fs]. exact H.
Qed.

Lemma concatenate_two g1 g2 :
  concatenate [g1; g2] =
  {| class := Trimesh;
     vertices := vertices g1 ++ vertices g2;
     faces := faces g1 ++ map (shift_face (length (vertices g1))) (faces g2) |}.
Proof.
  unfold concatenate. simpl. rewrite !app_nil_r. f_equal.
  rewrite <- (map_id (faces g1)) at 2. f_equal. apply map_ext. apply shift_face_0.
Qed.

(** C7. A scene whose [Trimesh] members are exactly two valid meshes
    flattens to a mesh with [f1 + f2] faces, every face index of which is
    below the length of the combined vertex buffer; the offsets are the
    right ones, since the flattened mesh has the triangles of the first
    member followed by those of the second. *)
Theorem scene_flattening_two (geometry : list (string * Geometry)) (g1 g2 : Geometry) :
  List.filter isinstance_Trimesh (map snd geometry) = [g1; g2] ->
  mesh_valid g1 -> mesh_valid g2 ->
  exists m,
    flatten (Scene geometry) = Ret m /\
    length (faces m) = (length (faces g1) + length (faces g2))%nat /\
    mesh_valid m /\
    length (vertices m) = (length (vertices g1) + length (vertices g2))%nat /\
    triangles m = triangles g1 ++ triangles g2.
Proof.
  intros Hf H1 H2. exists (concatenate [g1; g2]).
  split; [simpl; unfold flatten_scene; by rewrite Hf|].
  split.
  { rewrite concatenate_two. simpl. by rewrite length_app, length_map. }
  split; [apply concatenate_valid; by repeat constructor|].
  rewrite concatenate_two. simpl. split; [apply length_app|].
  unfold triangles. simpl. rewrite map_app, map_map. f_equal.
  - apply map_ext_in. intros f Hin. apply triangle_of_app_l.
    unfold mesh_valid in H1. rewrite Forall_forall in H1. by apply H1.
  - apply map_ext. intros f. apply triangle_of_app_r.
Qed.

Lemma scene_flattening_two_witness :
  exists m,
    flatten (Scene [("body"%string, tetra); ("points"%string, cloud); ("fin"%string, sheet)]) = Ret m /\
    length (faces m) = (length (faces tetra) + length (faces sheet))%nat /\
    mesh_valid m /\
    length (vertices m) = (length (vertices tetra) + length (vertices sheet))%nat /\
    triangles m = triangles tetra ++ triangles sheet.
Proof.
  apply scene_flattening_two.
  - reflexivity.
  - unfold mesh_valid, tetra; simpl. repeat constructor.
  - unfold mesh_valid, sheet; simpl. repeat constructor.
Defined.

(** ** Loading *)

Lemma trimesh_load_ok (L : Trimesh_lib) (disk : gmap string (File L)) path f x :
  disk !! path = Some f -> parse L f = inr x ->
  trimesh_load L path disk = (Ret x, disk).
Proof. intros Hd Hp. unfold trimesh_load. by rewrite Hd, Hp. Qed.

(** ** Empty scenes *)

(** C6. Converting a file that holds a scene none of whose members is a
    [Trimesh] raises the empty-scene [ValueError] to the caller, and the
    disk is left as it was: no output file is written. *)
Theorem empty_scene_error (L : Trimesh_lib) (disk : gmap string (File L))
    (input_path output_path : Path) (f : File L) (geometry : list (string * Geometry)) :
  disk !! input_path = Some f ->
  parse L f = inr (Scene geometry) ->
  List.filter isinstance_Trimesh (map snd geometry) = [] ->
  _convert_to_stl_sync L input_path output_path disk =
    (Raise (ValueError "场景中没有有效的网格几何体"), disk).
Proof.
  intros Hd Hp Hf. unfold _convert_to_stl_sync, bind.
  rewrite (trimesh_load_ok L disk input_path f _ Hd Hp).
  unfold lift, flatten, flatten_scene. by rewrite Hf.
Qed.

Lemma empty_scene_error_witness :
  _convert_to_stl_sync ref_lib "drawing.glb" "drawing_model.stl"
    (<["drawing.glb" := ModelFile (Scene [("points"%string, cloud)])]> ∅) =
    (Raise (ValueError "场景中没有有效的网格几何体"),
     <["drawing.glb" := ModelFile (Scene [("points"%string, cloud)])]> ∅).
Proof.
  apply (empty_scene_error ref_lib _ _ _ (ModelFile (Scene [("points"%string, cloud)]))
           [("points"%string, cloud)]).
  - apply lookup_insert_eq.
  - reflexivity.
  - reflexivity.
Defined.

(** ** Printability report *)

(** C8. For a file that loads as a [Trimesh] with a bounding box,
    [check_printability] returns a report whose volume field is the mesh
    volume exactly when the mesh is watertight, and is [None] (never a
    number, so never 0) when it is not. *)
Theorem volume_iff_watertight (L : Trimesh_lib) (disk : gmap string (File L))
    (stl_path : Path) (f : File L) (g : Geometry) (lo hi : V3) :
  disk !! stl_path = Some f ->
  parse L f = inr (Geom g) ->
  isinstance_Trimesh g = true ->
  bounds g = Some (lo, hi) ->
  exists r,
    check_printability L stl_path disk = (Ret (ReportDict r), disk) /\
    report.is_watertight r = is_watertight L g /\
    (is_watertight L g = true -> report.volume_mm3 r = Some (volume L g)) /\
    (is_watertight L g = false -> report.volume_mm3 r = None) /\
    (report.volume_mm3 r <> None <-> is_watertight L g = true).
Proof.
  intros Hd Hp Ht Hb. unfold check_printability, bind.
  rewrite (trimesh_load_ok L disk stl_path f _ Hd Hp), Ht.
  unfold lift, printability. rewrite Hb. eexists. split; [reflexivity|]. simpl.
  destruct (is_watertight L g); repeat split; try done.
Qed.

Lemma volume_iff_watertight_witness :
  exists r,
    check_printability ref_lib "box.stl" (<["box.stl" := StlFile (triangles open_tetra)]> ∅) =
      (Ret (ReportDict r), <["box.stl" := StlFile (triangles open_tetra)]> ∅) /\
    report.is_watertight r =
      is_watertight ref_lib (mesh_of_triangles (triangles open_tetra)) /\
    (is_watertight ref_lib (mesh_of_triangles (triangles open_tetra)) = true ->
     report.volume_mm3 r = Some (volume ref_lib (mesh_of_triangles (triangles open_tetra)))) /\
    (is_watertight ref_lib (mesh_of_triangles (triangles open_tetra)) = false ->
     report.volume_mm3 r = None) /\
    (report.volume_mm3 r <> None <->
     is_watertight ref_lib (mesh_of_triangles (triangles open_tetra)) = true).
Proof.
  eapply (volume_iff_watertight ref_lib _ "box.stl" (StlFile (triangles open_tetra))).
  - apply lookup_insert_eq.
  - reflexivity.
  - reflexivity.
  - vm_compute. reflexivity.
Defined.

(** ** Rescaling on request *)

Lemma vscale_0 s v : s == 0 -> V3eq (vscale s v) origin.
Proof.
  intros Hs. destruct v as [[x y] z]. unfold V3eq, vscale, origin, vx, vy, vz. simpl.
  rewrite Hs. repeat split; ring.
Qed.

Lemma vscale_neg s v : V3eq (vscale s v) (vsub origin (vscale (- s) v)).
Proof.
  destruct v as [[x y] z]. unfold V3eq, vscale, vsub, origin, vx, vy, vz. simpl.
  repeat split; ring.
Qed.

Lemma scale_model_on_trimesh (L : Trimesh_lib) (disk : gmap string (File L))
    (stl_path : Path) (f : File L) (g : Geometry) (scale_percent : Q) :
  disk !! stl_path = Some f ->
  parse L f = inr (Geom g) ->
  isinstance_Trimesh g = true ->
  scale_model L stl_path scale_percent disk =
    match export_stl L (apply_scale (scale_percent / 100) g) with
    | inr f' => (Ret stl_path, <[stl_path := f']> disk)
    | inl e => (Raise e, <[stl_path := empty_file L]> disk)
    end.
Proof.
  intros Hd Hp Ht. unfold scale_model, bind.
  rewrite (trimesh_load_ok L disk stl_path f _ Hd Hp), Ht. unfold export.
  by destruct (export_stl L (apply_scale (scale_percent / 100) g)).
Qed.

(** C10. [scale_model] does not look at [scale_percent]: whatever its
    value, zero and negative values included, the vertices of the loaded
    mesh are multiplied by [scale_percent / 100], and when the scaled mesh
    can be encoded the call returns, having written it to the same path:
    nothing in [scale_model] itself raises.  At 0 every vertex lands on the
    origin, and a negative percentage is the point reflection of the
    positive one. *)
Theorem scale_model_unvalidated (L : Trimesh_lib) (disk : gmap string (File L))
    (stl_path : Path) (f f' : File L) (g : Geometry) (scale_percent : Q) :
  disk !! stl_path = Some f ->
  parse L f = inr (Geom g) ->
  isinstance_Trimesh g = true ->
  export_stl L (apply_scale (scale_percent / 100) g) = inr f' ->
  let g' := apply_scale (scale_percent / 100) g in
  vertices g' = map (vscale (scale_percent / 100)) (vertices g) /\
  scale_model L stl_path scale_percent disk = (Ret stl_path, <[stl_path := f']> disk) /\
  (scale_percent == 0 -> Forall (fun v => V3eq v origin) (vertices g')) /\
  Forall2 (fun v v' => V3eq v' (vsub origin (vscale (- (scale_percent / 100)) v)))
          (vertices g) (vertices g').
Proof.
  intros Hd Hp Ht He g'. split; [reflexivity|].
  split; [by rewrite (scale_model_on_trimesh L disk stl_path f g _ Hd Hp Ht), He|].
  split.
  - intros H0. subst g'. simpl. apply Forall_map, Forall_forall. intros v _.
    apply vscale_0. rewrite H0. reflexivity.
  - subst g'. simpl. induction (vertices g) as [|v vs IH]; simpl; constructor; auto.
    apply vscale_neg.
Qed.

Lemma scale_model_unvalidated_witness :
  let g' := apply_scale (-50 / 100) (mesh_of_triangles (triangles tetra)) in
  vertices g' = map (vscale (-50 / 100)) (vertices (mesh_of_triangles (triangles tetra))) /\
  scale_model ref_lib "toy.stl" (-50) (<["toy.stl" := StlFile (triangles tetra)]> ∅) =
    (Ret "toy.stl"%string,
     <["toy.stl" := StlFile (triangles g')]> (<["toy.stl" := StlFile (triangles tetra)]> ∅)) /\
  (-50 == 0 -> Forall (fun v => V3eq v origin) (vertices g')) /\
  Forall2 (fun v v' => V3eq v' (vsub origin (vscale (- (-50 / 100)) v)))
          (vertices (mesh_of_triangles (triangles tetra))) (vertices g').
Proof.
  apply (scale_model_unvalidated ref_lib _ "toy.stl" (StlFile (triangles tetra))).
  - apply lookup_insert_eq.
  - reflexivity.
  - reflexivity.
  - reflexivity.
Defined.

(** [scale_model] at 0 on the reference implementation: no exception, and
    the file now holds a mesh collapsed onto the origin. *)
Example scale_model_zero_collapses :
  exists f',
    scale_model ref_lib "toy.stl" 0 (<["toy.stl" := StlFile (triangles sheet)]> ∅) =
      (Ret "toy.stl"%string, <["toy.stl" := f']> (<["toy.stl" := StlFile (triangles sheet)]> ∅)) /\
    f' = StlFile [((0 # 100, 0 # 100, 0 # 100), (0 # 100, 0 # 100, 0 # 100), (0 # 100, 0 # 100, 0 # 100))].
Proof. eexists. split; vm_compute; reflexivity. Qed.

(** ** The repair pass *)

Lemma try_except_pass_returns {S : Type} (body : M S unit) (s : S) :
  fst (try_except body pass s) = Ret tt.
Proof. unfold try_except, pass, ret. destruct (body s) as [[[]|e] s']; reflexivity. Qed.

Lemma fix_orientation_returns L s : fst (fix_orientation L s) = Ret tt.
Proof. apply try_except_pass_returns. Qed.

Lemma fill_holes_if_open_returns L s : fst (fill_holes_if_open L s) = Ret tt.
Proof. apply try_except_pass_returns. Qed.

Lemma cleanup_returns L s : fst (cleanup L s) = Ret tt.
Proof.
  unfold cleanup, try_except at 1.
  destruct (mutate CallProcess (process L) s) as [[[]|e] s']; [reflexivity|].
  pose proof (try_except_pass_returns
    (mutate CallMergeVertices (merge_vertices L);;
     mask <- query CallNondegenerateFaces (nondegenerate_faces L);;
     mutate CallUpdateFaces (update_faces L mask)) s') as H.
  destruct (try_except _ pass s'). simpl in H. by subst.
Qed.

(** No exception leaves the repair pass. *)
Lemma repair_returns L s : fst (repair L s) = Ret tt.
Proof.
  unfold repair, bind.
  pose proof (fix_orientation_returns L s) as H1.
  destruct (fix_orientation L s) as [r1 s1]. simpl in H1. subst r1.
  pose proof (fill_holes_if_open_returns L s1) as H2.
  destruct (fill_holes_if_open L s1) as [r2 s2]. simpl in H2. subst r2.
  apply cleanup_returns.
Qed.




(** *** Which steps run *)

Ltac case_calls :=
  repeat match goal with
         | |- context [match ?x with _ => _ end] =>
             match x with
             | context [match _ with _ => _ end] => fail 1
             | _ => destruct x eqn:?
             end
         end.

Ltac log_tail :=
  simpl; rewrite <- ?app_assoc; simpl; eexists; reflexivity.

Lemma fix_orientation_calls L s :
  exists l, calls (snd (fix_orientation L s)) = calls s ++ (CallFixNormals, mesh s) :: l.
Proof.
  unfold fix_orientation, bind, try_except, pass, ret, mutate.
  case_calls; log_tail.
Qed.

Lemma fill_holes_if_open_calls L s :
  exists l, calls (snd (fill_holes_if_open L s)) = calls s ++ (CallIsWatertight, mesh s) :: l.
Proof.
  unfold fill_holes_if_open, bind, try_except, pass, ret, mutate, query. simpl.
  case_calls; log_tail.
Qed.

Lemma cleanup_calls L s :
  exists l, calls (snd (cleanup L s)) = calls s ++ (CallProcess, mesh s) :: l.
Proof.
  unfold cleanup, bind, try_except, pass, ret, mutate, query. simpl.
  case_calls; log_tail.
Qed.

(** C2, as the code has it.  The repair pass is three guarded blocks:
    orientation (normal, inversion and winding correction under one guard),
    hole filling, clean-up.  Whatever fails, the pass returns, and the first
    call of every block is made: [fix_normals] on the loaded mesh, then the
    watertightness test on the mesh in the state the orientation block left
    it, then [process] on the mesh in the state the hole-filling block left
    it.  Nothing is rolled back in between. *)
Theorem repair_blocks_all_run (L : Trimesh_lib) (g : Geometry) :
  let s0 := {| mesh := g; calls := [] |} in
  let s1 := snd (fix_orientation L s0) in
  let s2 := snd (fill_holes_if_open L s1) in
  let s3 := snd (cleanup L s2) in
  repair L s0 = (Ret tt, s3) /\
  exists l1 l2 l3,
    calls s3 = (CallFixNormals, g) :: l1 ++
               (CallIsWatertight, mesh s1) :: l2 ++
               (CallProcess, mesh s2) :: l3.
Proof.
  intros s0 s1 s2 s3. split.
  - unfold repair, bind.
    pose proof (fix_orientation_returns L s0) as H1.
    pose proof (fill_holes_if_open_returns L s1) as H2.
    pose proof (cleanup_returns L s2) as H3.
    subst s3 s2 s1.
    destruct (fix_orientation L s0) as [r1 t1]. simpl in *. subst r1.
    destruct (fill_holes_if_open L t1) as [r2 t2]. simpl in *. subst r2.
    destruct (cleanup L t2) as [r3 t3]. simpl in *. by subst r3.
  - destruct (fix_orientation_calls L s0) as [l1 E1].
    destruct (fill_holes_if_open_calls L s1) as [l2 E2].
    destruct (cleanup_calls L s2) as [l3 E3].
    exists l1, l2, l3.
    change (calls s3) with (calls (snd (cleanup L s2))). rewrite E3.
    change (calls s2) with (calls (snd (fill_holes_if_open L s1))). rewrite E2.
    change (calls s1) with (calls (snd (fix_orientation L s0))). rewrite E1.
    simpl. by rewrite <- !app_assoc.
Qed.

(** C2 fails as stated.  On a trimesh without [repair.fix_normals] the
    first step fails and leaves the mesh untouched, and yet inversion and
    winding correction, which sit under the same guard, are not run. *)
Lemma failed_step_skips_its_block :
  let s := snd (repair legacy_lib {| mesh := tetra; calls := [] |}) in
  fix_normals legacy_lib tetra =
    (tetra, Some (LibraryError "AttributeError"
                    "module 'trimesh.repair' has no attribute 'fix_normals'")) /\
  called CallFixNormals s = true /\
  called CallFixInversion s = false /\
  called CallFixWinding s = false /\
  map fst (calls s) = [CallFixNormals; CallIsWatertight; CallProcess] /\
  ~ (forall (L : Trimesh_lib) (g : Geometry),
       called CallFixInversion (snd (repair L {| mesh := g; calls := [] |})) = true).
Proof.
  repeat split; try (vm_compute; reflexivity).
  intros H. specialize (H legacy_lib tetra). vm_compute in H. discriminate H.
Qed.

(** ** Bounding boxes under scaling and translation *)

Lemma face_mem_fliplr i f : face_mem i (fliplr f) = face_mem i f.
Proof.
  destruct f as [[a b] c]. unfold face_mem, fliplr.
  destruct (Nat.eqb a i), (Nat.eqb b i), (Nat.eqb c i); reflexivity.
Qed.

Lemma existsb_face_mem_fliplr i fs :
  existsb (face_mem i) (map fliplr fs) = existsb (face_mem i) fs.
Proof. induction fs as [|f fs IH]; simpl; [done|]. by rewrite face_mem_fliplr, IH. Qed.

Lemma referenced_vertices_apply_scale s g :
  referenced_vertices (apply_scale s g) = referenced_vertices g.
Proof.
  unfold referenced_vertices, apply_scale. simpl. rewrite length_map.
  apply map_ext. intros i. destruct (Qlt_le_dec s 0); [apply existsb_face_mem_fliplr|done].
Qed.


Lemma mask_select_map {A B : Type} (f : A -> B) l mask :
  mask_select (map f l) mask = map f (mask_select l mask).
Proof.
  revert mask. induction l as [|x l IH]; intros [|b mask]; simpl; try done.
  destruct b; simpl; by rewrite IH.
Qed.

Lemma bounded_points_apply_scale s g :
  bounded_points (apply_scale s g) = map (vscale s) (bounded_points g).
Proof.
  unfold bounded_points. rewrite referenced_vertices_apply_scale. simpl.
  destruct (class g); [apply mask_select_map|done|done].
Qed.


Lemma qmin_list_map (f : Q -> Q) x l :
  Proper (Qeq ==> Qeq) f -> Proper (Qle ==> Qle) f ->
  qmin_list (f x) (map f l) == f (qmin_list x l).
Proof.
  intros Hf Hm. revert x. induction l as [|y l IH]; intros x; simpl; [reflexivity|].
  rewrite IH. by apply Q.min_mono.
Qed.

Lemma qmax_list_map (f : Q -> Q) x l :
  Proper (Qeq ==> Qeq) f -> Proper (Qle ==> Qle) f ->
  qmax_list (f x) (map f l) == f (qmax_list x l).
Proof.
  intros Hf Hm. revert x. induction l as [|y l IH]; intros x; simpl; [reflexivity|].
  rewrite IH. by apply Q.max_mono.
Qed.

Lemma Qmult_le_mono s : 0 <= s -> Proper (Qle ==> Qle) (Qmult s).
Proof.
  intros Hs x y Hxy. rewrite (Qmult_comm s x), (Qmult_comm s y).
  by apply Qmult_le_compat_r.
Qed.



Lemma map_vx_vscale s ps : map vx (map (vscale s) ps) = map (Qmult s) (map vx ps).
Proof. rewrite !map_map. apply map_ext. by intros [[x y] z]. Qed.
Lemma map_vy_vscale s ps : map vy (map (vscale s) ps) = map (Qmult s) (map vy ps).
Proof. rewrite !map_map. apply map_ext. by intros [[x y] z]. Qed.
Lemma map_vz_vscale s ps : map vz (map (vscale s) ps) = map (Qmult s) (map vz ps).
Proof. rewrite !map_map. apply map_ext. by intros [[x y] z]. Qed.


Lemma Qmult_eq_mono s : Proper (Qeq ==> Qeq) (Qmult s).
Proof. intros x y Hxy. by rewrite Hxy. Qed.

(** A non-negative uniform scale scales both corners of the bounding box. *)
Lemma bounds_apply_scale s g lo hi :
  0 <= s -> bounds g = Some (lo, hi) ->
  exists lo' hi',
    bounds (apply_scale s g) = Some (lo', hi') /\
    V3eq lo' (vscale s lo) /\ V3eq hi' (vscale s hi).
Proof.
  intros Hs. unfold bounds. rewrite bounded_points_apply_scale.
  destruct (bounded_points g) as [|p ps]; [done|]. intros [= <- <-]. simpl.
  eexists _, _. split; [reflexivity|].
  pose proof (Qmult_eq_mono s) as He. pose proof (Qmult_le_mono s Hs) as Hm.
  unfold min_corner, max_corner, V3eq.
  rewrite map_vx_vscale, map_vy_vscale, map_vz_vscale. destruct p as [[x y] z].
  unfold vscale, vx, vy, vz. simpl.
  repeat split; first [by apply qmin_list_map | by apply qmax_list_map].
Qed.


Lemma bounds_none_apply_scale s g : bounds g = None -> bounds (apply_scale s g) = None.
Proof.
  unfold bounds. rewrite bounded_points_apply_scale.
  by destruct (bounded_points g).
Qed.






(** ** Normalisation *)



(** C5. When the bounding box of the mesh to convert has largest extent
    zero, the conversion does not scale: nothing is divided, the centroid
    is subtracted from every vertex of the mesh as loaded, and, the centred
    mesh being one the serializer can encode, the conversion returns with
    that mesh written to the output path. *)
Theorem degenerate_mesh_is_only_centred (L : Trimesh_lib) (disk : gmap string (File L))
    (input_path output_path : Path) (f f' : File L) (loaded : Loaded)
    (g : Geometry) (lo hi : V3) :
  disk !! input_path = Some f ->
  parse L f = inr loaded ->
  flatten loaded = Ret g ->
  bounds g = Some (lo, hi) ->
  np_max (vsub hi lo) == 0 ->
  export_stl L (center L g) = inr f' ->
  scale_to_print_size g = Ret g /\
  vertices (center L g) = map (fun v => vsub v (centroid L g)) (vertices g) /\
  faces (center L g) = faces g /\
  _convert_to_stl_sync L input_path output_path disk =
    (Ret tt, <[output_path := f']> disk).
Proof.
  intros Hd Hp Hfl Hb H0 He.
  assert (Hs : scale_to_print_size g = Ret g).
  { unfold scale_to_print_size. rewrite Hb.
    destruct (Qlt_le_dec 0 (np_max (vsub hi lo))) as [Hlt|_]; [|reflexivity].
    rewrite H0 in Hlt. by apply Qlt_irrefl in Hlt. }
  split; [exact Hs|]. split; [reflexivity|]. split; [reflexivity|].
  unfold _convert_to_stl_sync, bind.
  rewrite (trimesh_load_ok L disk input_path f _ Hd Hp).
  unfold lift. rewrite Hfl, Hs. unfold export. by rewrite He.
Qed.

Lemma degenerate_mesh_is_only_centred_witness :
  scale_to_print_size speck = Ret speck /\
  vertices (center ref_lib speck) =
    map (fun v => vsub v (centroid ref_lib speck)) (vertices speck) /\
  faces (center ref_lib speck) = faces speck /\
  _convert_to_stl_sync ref_lib "dot.glb" "dot_model.stl"
    (<["dot.glb" := ModelFile (Geom speck)]> ∅) =
    (Ret tt, <["dot_model.stl" := StlFile (triangles (center ref_lib speck))]>
               (<["dot.glb" := ModelFile (Geom speck)]> ∅)).
Proof.
  apply (degenerate_mesh_is_only_centred ref_lib _ "dot.glb" "dot_model.stl"
           (ModelFile (Geom speck)) _ (Geom speck) speck (7, 7, 7) (7, 7, 7)).
  - apply lookup_insert_eq.
  - reflexivity.
  - reflexivity.
  - vm_compute. reflexivity.
  - vm_compute. reflexivity.
  - reflexivity.
Defined.

(** The degenerate mesh on the reference implementation: the conversion
    returns and the file holds the mesh moved onto the origin. *)
Example degenerate_mesh_converts :
  exists disk',
    _convert_to_stl_sync ref_lib "dot.glb" "dot_model.stl"
      (<["dot.glb" := ModelFile (Geom speck)]> ∅) = (Ret tt, disk') /\
    exists tris, disk' !! "dot_model.stl" = Some (StlFile tris) /\
                 Forall (fun p => V3eq p origin) (flat_map corners tris).
Proof.
  eexists. split; [vm_compute; reflexivity|].
  eexists. split; [vm_compute; reflexivity|].
  repeat constructor.
Qed.

(** *** Centring *)

Lemma face_ok_fliplr n f : face_ok n f -> face_ok n (fliplr f).
Proof. destruct f as [[a b] c]. unfold face_ok, fliplr. tauto. Qed.

Lemma mesh_valid_apply_scale s g : mesh_valid g -> mesh_valid (apply_scale s g).
Proof.
  unfold mesh_valid, apply_scale. simpl. rewrite length_map. intros H.
  destruct (Qlt_le_dec s 0); [|exact H].
  apply Forall_map. eapply Forall_impl; [|exact H]. intros f. apply face_ok_fliplr.
Qed.

Lemma mesh_valid_translate c g : mesh_valid g -> mesh_valid (translate c g).
Proof. unfold mesh_valid, translate. simpl. by rewrite length_map. Qed.

Lemma faces_apply_scale_nonempty s g : faces g <> [] -> faces (apply_scale s g) <> [].
Proof.
  unfold apply_scale. simpl. destruct (Qlt_le_dec s 0); [|done].
  by destruct (faces g).
Qed.

Lemma mask_select_all_false {A : Type} (l : list A) (idx : list nat) :
  mask_select l (map (fun _ => false) idx) = [].
Proof.
  revert idx. induction l as [|x l IH]; intros [|i idx]; simpl; auto.
Qed.

(** A [Trimesh] with a bounding box has at least one face. *)
Lemma bounds_some_faces g b :
  isinstance_Trimesh g = true -> bounds g = Some b -> faces g <> [].
Proof.
  unfold isinstance_Trimesh, bounds, bounded_points, referenced_vertices.
  destruct (class g); try done. intros _ Hb Hf. rewrite Hf in Hb. simpl in Hb.
  by rewrite mask_select_all_false in Hb.
Qed.


Lemma V3eq_trans u v w : V3eq u v -> V3eq v w -> V3eq u w.
Proof.
  intros (H1 & H2 & H3) (H4 & H5 & H6). unfold V3eq.
  rewrite H1, H2, H3. auto.
Qed.


Lemma V3eq_refl u : V3eq u u.
Proof. unfold V3eq. repeat split; reflexivity. Qed.

Lemma scale_to_print_size_cases g lo hi :
  bounds g = Some (lo, hi) ->
  exists g1, scale_to_print_size g = Ret g1 /\
    (g1 = g \/ exists s, 0 < s /\ g1 = apply_scale s g).
Proof.
  intros Hb. unfold scale_to_print_size. rewrite Hb.
  destruct (Qlt_le_dec 0 (np_max (vsub hi lo))) as [Hlt|Hle].
  - eexists. split; [reflexivity|]. right. eexists. split; [|reflexivity].
    apply Qlt_shift_div_l; [done|]. by rewrite Qmult_0_l.
  - eexists. split; [reflexivity|]. by left.
Qed.


(** *** The area-weighted centroid follows translations *)

Lemma nth_map_in_range {A B : Type} (f : A -> B) (l : list A) (i : nat) (d : A) (d' : B) :
  (i < length l)%nat -> nth i (map f l) d' = f (nth i l d).
Proof.
  intros Hi. rewrite (nth_indep (map f l) d' (f d)) by (by rewrite length_map).
  apply map_nth.
Qed.







Section AreaWeighted.

Variable norm : V3 -> Q.
Hypothesis norm_wd : forall u v, V3eq u v -> norm u == norm v.





Lemma vscale_V3eq s s' u v : s == s' -> V3eq u v -> V3eq (vscale s u) (vscale s' v).
Proof.
  intros Hs (H1 & H2 & H3). unfold V3eq, vscale. cbn [vx vy vz fst snd].
  by rewrite Hs, H1, H2, H3.
Qed.



End AreaWeighted.




(** ** The bounding box is a function of the triangles *)

Lemma Qmin_cases x y : Qmin x y = x \/ Qmin x y = y.
Proof. unfold Qmin, GenericMinMax.gmin. destruct (x ?= y); auto. Qed.

Lemma Qmax_cases x y : Qmax x y = x \/ Qmax x y = y.
Proof. unfold Qmax, GenericMinMax.gmax. destruct (x ?= y); auto. Qed.

Lemma qmin_list_mem x l : In (qmin_list x l) (x :: l).
Proof.
  revert x. induction l as [|y l IH]; intros x; simpl; [auto|].
  destruct (Qmin_cases x (qmin_list y l)) as [->| ->]; [auto|].
  right. apply IH.
Qed.

Lemma qmax_list_mem x l : In (qmax_list x l) (x :: l).
Proof.
  revert x. induction l as [|y l IH]; intros x; simpl; [auto|].
  destruct (Qmax_cases x (qmax_list y l)) as [->| ->]; [auto|].
  right. apply IH.
Qed.

Lemma qmin_list_lb x l y : In y (x :: l) -> qmin_list x l <= y.
Proof.
  revert x. induction l as [|z l IH]; intros x Hin.
  - destruct Hin as [->|[]]. apply Qle_refl.
  - cbn [qmin_list]. destruct Hin as [->|Hin].
    + apply Q.le_min_l.
    + eapply Qle_trans; [apply Q.le_min_r|]. by apply IH.
Qed.

Lemma qmax_list_ub x l y : In y (x :: l) -> y <= qmax_list x l.
Proof.
  revert x. induction l as [|z l IH]; intros x Hin.
  - destruct Hin as [->|[]]. apply Qle_refl.
  - cbn [qmax_list]. destruct Hin as [->|Hin].
    + apply Q.le_max_l.
    + eapply Qle_trans; [|apply Q.le_max_r]. by apply IH.
Qed.

Lemma qmin_list_ext x1 l1 x2 l2 :
  (forall y, In y (x1 :: l1) <-> In y (x2 :: l2)) ->
  qmin_list x1 l1 == qmin_list x2 l2.
Proof.
  intros H. apply Qle_antisym; apply qmin_list_lb, H, qmin_list_mem.
Qed.

Lemma qmax_list_ext x1 l1 x2 l2 :
  (forall y, In y (x1 :: l1) <-> In y (x2 :: l2)) ->
  qmax_list x1 l1 == qmax_list x2 l2.
Proof.
  intros H. apply Qle_antisym; apply qmax_list_ub, H, qmax_list_mem.
Qed.

Lemma coordinates_ext (c : V3 -> Q) (p1 : V3) ps1 p2 ps2 :
  (forall p, In p (p1 :: ps1) <-> In p (p2 :: ps2)) ->
  forall y, In y (c p1 :: map c ps1) <-> In y (c p2 :: map c ps2).
Proof.
  intros H y. change (In y (map c (p1 :: ps1)) <-> In y (map c (p2 :: ps2))).
  rewrite !in_map_iff. split; intros (p & <- & Hp); exists p; split; auto; by apply H.
Qed.

(** Two meshes whose bounding boxes range over the same points have the
    same bounding box. *)
Lemma bounds_ext g1 g2 :
  (forall p, In p (bounded_points g1) <-> In p (bounded_points g2)) ->
  scaled_bounds 1 (bounds g1) (bounds g2).
Proof.
  intros H. unfold bounds.
  destruct (bounded_points g1) as [|p1 ps1], (bounded_points g2) as [|p2 ps2]; simpl.
  - exact I.
  - destruct (proj2 (H p2)); simpl; auto.
  - destruct (proj1 (H p1)); simpl; auto.
  - assert (H' : forall p, In p (p2 :: ps2) <-> In p (p1 :: ps1)) by (intros p; symmetry; apply H).
    unfold min_corner, max_corner, V3eq, vscale. cbn [vx vy vz fst snd].
    rewrite !Qmult_1_l.
    repeat split;
      first [ apply qmin_list_ext | apply qmax_list_ext ];
      by apply coordinates_ext.
Qed.

Lemma mask_select_In {A : Type} (P : nat -> bool) (l : list A) (k : nat) (d x : A) :
  In x (mask_select l (map P (seq k (length l)))) <->
  exists i, (i < length l)%nat /\ nth i l d = x /\ P (k + i)%nat = true.
Proof.
  revert k. induction l as [|y l IH]; intros k.
  - simpl. split; [done|]. intros (i & Hi & _). lia.
  - cbn [length seq map mask_select]. split.
    + intros Hin. destruct (P k) eqn:Hk.
      * destruct Hin as [->|Hin].
        -- exists 0%nat. simpl. rewrite Nat.add_0_r. repeat split; [lia|done].
        -- apply IH in Hin as (i & Hi & Hn & HP). exists (S i). simpl.
           rewrite <- plus_n_Sm. repeat split; [lia|done|done].
      * apply IH in Hin as (i & Hi & Hn & HP). exists (S i). simpl.
        rewrite <- plus_n_Sm. repeat split; [lia|done|done].
    + intros (i & Hi & Hn & HP). destruct i as [|i].
      * rewrite Nat.add_0_r in HP. rewrite HP. simpl in Hn. left. done.
      * assert (Hin : In x (mask_select l (map P (seq (S k) (length l))))).
        { apply IH. exists i. simpl in Hi, Hn. rewrite <- plus_n_Sm in HP.
          repeat split; [lia|done|done]. }
        destruct (P k); [by right|done].
Qed.

Lemma face_mem_true i f :
  face_mem i f = true <-> (let '(a, b, c) := f in a = i \/ b = i \/ c = i).
Proof.
  destruct f as [[a b] c]. unfold face_mem.
  rewrite !orb_true_iff, !Nat.eqb_eq. tauto.
Qed.

Lemma In_corners_triangle_of p vs f :
  In p (corners (triangle_of vs f)) <->
  (let '(a, b, c) := f in
   p = nth a vs origin \/ p = nth b vs origin \/ p = nth c vs origin).
Proof.
  destruct f as [[a b] c]. unfold triangle_of, corners. simpl.
  split; [intros [H|[H|[H|[]]]]|intros [H|[H|H]]]; auto.
Qed.

(** For a valid [Trimesh] the points its bounding box ranges over are the
    corners of its triangles. *)
Lemma bounded_points_corners g p :
  isinstance_Trimesh g = true -> mesh_valid g ->
  In p (bounded_points g) <-> In p (flat_map corners (triangles g)).
Proof.
  unfold isinstance_Trimesh, bounded_points, referenced_vertices, mesh_valid, triangles.
  destruct (class g); try done. intros _ Hv. rewrite Forall_forall in Hv.
  rewrite (mask_select_In (fun i => existsb (face_mem i) (faces g)) (vertices g) 0 origin p).
  rewrite in_flat_map. split.
  - intros (i & Hi & Hn & Hex). simpl in Hex. apply existsb_exists in Hex as (f & Hf & Hm).
    exists (triangle_of (vertices g) f). split; [by apply in_map|].
    apply In_corners_triangle_of. apply face_mem_true in Hm.
    destruct f as [[a b] c]. destruct Hm as [->|[->| ->]]; auto.
  - intros (T & HT & Hp). apply in_map_iff in HT as (f & <- & Hf).
    apply In_corners_triangle_of in Hp. specialize (Hv f Hf).
    destruct f as [[a b] c]. destruct Hv as (Ha & Hb & Hc).
    destruct Hp as [->|[->| ->]].
    + exists a. repeat split; [done|]. simpl. apply existsb_exists.
      exists (a, b, c). split; [done|]. apply face_mem_true. auto.
    + exists b. repeat split; [done|]. simpl. apply existsb_exists.
      exists (a, b, c). split; [done|]. apply face_mem_true. auto.
    + exists c. repeat split; [done|]. simpl. apply existsb_exists.
      exists (a, b, c). split; [done|]. apply face_mem_true. auto.
Qed.

(** Two valid meshes with the same triangles have the same bounding box. *)
Lemma bounds_same_triangles g g' :
  isinstance_Trimesh g = true -> mesh_valid g ->
  isinstance_Trimesh g' = true -> mesh_valid g' ->
  triangles g' = triangles g ->
  scaled_bounds 1 (bounds g) (bounds g').
Proof.
  intros Ht Hv Ht' Hv' Htri. apply bounds_ext. intros p.
  rewrite (bounded_points_corners g p Ht Hv), (bounded_points_corners g' p Ht' Hv').
  by rewrite Htri.
Qed.

Lemma scaled_bounds_apply_scale s g :
  0 <= s -> scaled_bounds s (bounds g) (bounds (apply_scale s g)).
Proof.
  intros Hs. destruct (bounds g) as [[lo hi]|] eqn:Hb.
  - destruct (bounds_apply_scale s g lo hi Hs Hb) as (lo' & hi' & -> & H1 & H2).
    by split.
  - by rewrite (bounds_none_apply_scale s g Hb).
Qed.

Lemma vscale_vscale s s' v : V3eq (vscale s' (vscale s v)) (vscale (s' * s) v).
Proof.
  destruct v as [[x y] z]. unfold V3eq, vscale. cbn [vx vy vz fst snd].
  repeat split; ring.
Qed.

Lemma scaled_bounds_compose s s' a b c :
  scaled_bounds s a b -> scaled_bounds s' b c -> scaled_bounds (s' * s) a c.
Proof.
  unfold scaled_bounds.
  destruct a as [[lo hi]|], b as [[lo1 hi1]|], c as [[lo2 hi2]|]; try done.
  intros (H1 & H2) (H3 & H4). split.
  - eapply V3eq_trans; [exact H3|]. eapply V3eq_trans; [|apply vscale_vscale].
    apply vscale_V3eq; [reflexivity|exact H1].
  - eapply V3eq_trans; [exact H4|]. eapply V3eq_trans; [|apply vscale_vscale].
    apply vscale_V3eq; [reflexivity|exact H2].
Qed.


Lemma V3eq_vsub u u' v v' : V3eq u u' -> V3eq v v' -> V3eq (vsub u v) (vsub u' v').
Proof.
  intros (H1 & H2 & H3) (H4 & H5 & H6). unfold V3eq, vsub. cbn [vx vy vz fst snd].
  by rewrite H1, H2, H3, H4, H5, H6.
Qed.


(** ** Rescaling there and back *)



(** *** The reference implementation keeps triangles *)

Lemma nth_flat_corners (tris : list Triangle) (i : nat) :
  (i < length tris)%nat ->
  (nth (3 * i) (flat_map corners tris) origin,
   nth (3 * i + 1) (flat_map corners tris) origin,
   nth (3 * i + 2) (flat_map corners tris) origin) =
  nth i tris (origin, origin, origin).
Proof.
  revert i. induction tris as [|[[a b] c] tris IH]; intros i Hi; simpl in Hi; [lia|].
  destruct i as [|i]; [reflexivity|].
  replace (3 * S i)%nat with (S (S (S (3 * i)))) by lia.
  cbn [flat_map corners app nth Nat.add]. apply IH. lia.
Qed.

Lemma length_flat_corners (tris : list Triangle) :
  length (flat_map corners tris) = (3 * length tris)%nat.
Proof.
  induction tris as [|[[a b] c] tris IH]; [reflexivity|].
  cbn [flat_map corners app length]. rewrite IH. lia.
Qed.

Lemma triangles_mesh_of_triangles tris : triangles (mesh_of_triangles tris) = tris.
Proof.
  unfold triangles, mesh_of_triangles. cbn [vertices faces]. rewrite map_map.
  apply (nth_ext _ _ (origin, origin, origin) (origin, origin, origin)).
  - by rewrite length_map, length_seq.
  - intros i Hi. rewrite length_map, length_seq in Hi.
    rewrite (nth_map_in_range _ _ i 0%nat) by (by rewrite length_seq).
    rewrite seq_nth by done. cbn [Nat.add triangle_of].
    by apply nth_flat_corners.
Qed.

Lemma mesh_valid_mesh_of_triangles tris : mesh_valid (mesh_of_triangles tris).
Proof.
  unfold mesh_valid, mesh_of_triangles. cbn [vertices faces].
  rewrite length_flat_corners. apply Forall_map, Forall_forall.
  intros i Hi. apply in_seq in Hi. unfold face_ok. lia.
Qed.

Lemma ref_lib_stl_round_trip : stl_round_trip ref_lib.
Proof.
  intros g Ht _ Hne. exists (StlFile (triangles g)), (mesh_of_triangles (triangles g)).
  split; [simpl; unfold ref_export_stl; rewrite Ht; by destruct (faces g)|].
  split; [simpl; unfold triangles; by destruct (faces g)|]. split; [reflexivity|].
  split; [apply mesh_valid_mesh_of_triangles|apply triangles_mesh_of_triangles].
Qed.




(** * Beyond the mesh service's specification *)

(** ** The storage janitor *)

Lemma fold_size_shift (l : list info.t) (a : Z) :
  fold_left (fun acc f => (acc + info.size f)%Z) l a =
  (a + fold_left (fun acc f => (acc + info.size f)%Z) l 0%Z)%Z.
Proof.
  revert a. induction l as [|f l IH]; intros a; cbn [fold_left]; [lia|].
  rewrite (IH (a + info.size f)%Z), (IH (0 + info.size f)%Z). lia.
Qed.

Lemma dir_size_shift (d : list Node) (a : Z) :
  fold_left (fun t n => if is_file n then (t + st_size n)%Z else t) d a =
  (a + get_directory_size d)%Z.
Proof.
  unfold get_directory_size. revert a.
  induction d as [|n d IH]; intros a; cbn [fold_left]; [lia|].
  rewrite (IH (if is_file n then (a + st_size n)%Z else a)).
  rewrite (IH (if is_file n then (0 + st_size n)%Z else 0%Z)). destruct (is_file n); lia.
Qed.

Lemma get_directory_size_cons n d :
  get_directory_size (n :: d) =
  ((if is_file n then st_size n else 0) + get_directory_size d)%Z.
Proof.
  unfold get_directory_size at 1. cbn [fold_left]. rewrite dir_size_shift.
  destruct (is_file n); lia.
Qed.

Lemma files_size_cons f l :
  fold_left (fun acc f => (acc + info.size f)%Z) (f :: l) 0%Z =
  (info.size f + fold_left (fun acc f => (acc + info.size f)%Z) l 0%Z)%Z.
Proof. cbn [fold_left]. rewrite fold_size_shift. lia. Qed.

Lemma files_size_collect d :
  fold_left (fun acc f => (acc + info.size f)%Z) (collect_files d) 0%Z = get_directory_size d.
Proof.
  induction d as [|n d IH]; [reflexivity|].
  rewrite get_directory_size_cons. unfold collect_files in *. simpl.
  destruct (is_file n); [|by rewrite IH].
  cbn [map]. rewrite files_size_cons. simpl. by rewrite IH.
Qed.

Lemma files_size_perm l l' :
  Permutation l l' ->
  fold_left (fun acc f => (acc + info.size f)%Z) l 0%Z =
  fold_left (fun acc f => (acc + info.size f)%Z) l' 0%Z.
Proof.
  induction 1 as [|x l l' _ IH|x y l|l l' l'' _ IH1 _ IH2].
  - reflexivity.
  - by rewrite !files_size_cons, IH.
  - rewrite !files_size_cons. lia.
  - by rewrite IH1.
Qed.

Lemma insert_by_mtime_perm x l : Permutation (x :: l) (insert_by_mtime x l).
Proof.
  induction l as [|y l IH]; simpl; [reflexivity|].
  destruct (Qle_bool (info.mtime x) (info.mtime y)); [reflexivity|].
  rewrite perm_swap. by constructor.
Qed.

Lemma sort_by_mtime_perm l : Permutation l (sort_by_mtime l).
Proof.
  induction l as [|x l IH]; simpl; [reflexivity|].
  rewrite <- insert_by_mtime_perm. by constructor.
Qed.

Lemma insert_by_mtime_sorted x l :
  StronglySorted mtime_le l -> StronglySorted mtime_le (insert_by_mtime x l).
Proof.
  induction 1 as [|y l Hs IH Hy]; simpl; [repeat constructor|].
  destruct (Qle_bool (info.mtime x) (info.mtime y)) eqn:E.
  - apply Qle_bool_iff in E. constructor; [by constructor|].
    constructor; [exact E|]. eapply Forall_impl; [|exact Hy].
    intros z Hz. unfold mtime_le in *. by eapply Qle_trans.
  - constructor; [exact IH|].
    assert (Hyx : mtime_le y x).
    { unfold mtime_le. destruct (Qlt_le_dec (info.mtime y) (info.mtime x)) as [H|H].
      - by apply Qlt_le_weak.
      - apply Qle_bool_iff in H. congruence. }
    rewrite Forall_forall. intros z Hz.
    apply (Permutation_in _ (Permutation_sym (insert_by_mtime_perm x l))) in Hz.
    destruct Hz as [<-|Hz]; [exact Hyx|]. rewrite Forall_forall in Hy. by apply Hy.
Qed.

Lemma sort_by_mtime_sorted l : StronglySorted mtime_le (sort_by_mtime l).
Proof.
  induction l as [|x l IH]; simpl; [constructor|]. by apply insert_by_mtime_sorted.
Qed.

(** X1.  A directory within its quota is left alone: nothing is unlinked,
    whatever the files and their ages. *)
Theorem cleanup_under_quota (directory : list Node) (max_size : Z) :
  (get_directory_size directory <= max_size)%Z ->
  cleanup_old_files directory max_size = (directory, 0%nat, get_directory_size directory).
Proof.
  intros Hle. unfold cleanup_old_files.
  rewrite <- (files_size_perm _ _ (sort_by_mtime_perm (collect_files directory))).
  rewrite files_size_collect.
  destruct (sort_by_mtime (collect_files directory)) as [|f fs]; [reflexivity|].
  simpl. destruct (Z.ltb_spec max_size (get_directory_size directory)); [lia|reflexivity].
Qed.

Lemma cleanup_under_quota_witness :
  cleanup_old_files sample_directory 145 =
    (sample_directory, 0%nat, get_directory_size sample_directory).
Proof. apply cleanup_under_quota. vm_compute. discriminate. Defined.

Lemma unlink_Some p d d' :
  unlink p d = Some d' ->
  exists pre n post,
    d = pre ++ n :: post /\ d' = pre ++ post /\
    node_path n = p /\ is_file n = true /\ unlink_ok n = true /\
    Forall (fun m => node_path m <> p) pre.
Proof.
  revert d'. induction d as [|m d IH]; intros d' H; simpl in H; [done|].
  destruct (String.eqb (node_path m) p) eqn:E.
  - apply String.eqb_eq in E.
    destruct (is_file m && unlink_ok m) eqn:B; [|done].
    apply andb_true_iff in B as [B1 B2]. injection H as <-.
    exists [], m, d. repeat split; auto.
  - apply String.eqb_neq in E.
    destruct (unlink p d) as [d1|] eqn:U; [|done]. injection H as <-.
    destruct (IH d1 eq_refl) as (pre & n & post & -> & -> & Hp & Hf & Hu & Hpre).
    exists (m :: pre), n, post. repeat split; auto.
Qed.

Lemma get_directory_size_app d1 d2 :
  get_directory_size (d1 ++ d2) = (get_directory_size d1 + get_directory_size d2)%Z.
Proof.
  induction d1 as [|n d1 IH]; [unfold get_directory_size at 2; simpl; lia|].
  cbn [app]. rewrite !get_directory_size_cons, IH. lia.
Qed.

Lemma unlink_sublist p d d' : unlink p d = Some d' -> sublist d' d.
Proof.
  intros H. destruct (unlink_Some p d d' H) as (pre & n & post & -> & -> & _).
  apply sublist_app; [reflexivity|]. by apply sublist_cons.
Qed.

Lemma unlink_In p d d' m : unlink p d = Some d' -> In m d' -> In m d.
Proof.
  intros H Hin. destruct (unlink_Some p d d' H) as (pre & n & post & -> & -> & _).
  apply in_app_iff in Hin as [Hin|Hin]; apply in_app_iff; [by left|right; by right].
Qed.

Lemma unlink_NoDup p d d' :
  unlink p d = Some d' -> List.NoDup (map node_path d) -> List.NoDup (map node_path d').
Proof.
  intros H Hn. destruct (unlink_Some p d d' H) as (pre & n & post & -> & -> & _).
  rewrite map_app in *. cbn [map] in Hn. by apply NoDup_remove_1 in Hn.
Qed.

(** With unique paths, a successful unlink removes every entry of that path. *)
Lemma unlink_removes p d d' m :
  List.NoDup (map node_path d) -> unlink p d = Some d' -> In m d' -> node_path m <> p.
Proof.
  intros Hn H Hin.
  destruct (unlink_Some p d d' H) as (pre & n & post & -> & -> & Hp & _ & _ & Hpre).
  rewrite map_app in Hn. cbn [map] in Hn. apply NoDup_remove_2 in Hn.
  intros Hm. apply Hn. rewrite Hp, <- Hm, <- map_app. by apply in_map.
Qed.

(** With unique paths, two entries of the same path are the same entry. *)
Lemma same_path_same_node d m n :
  List.NoDup (map node_path d) -> In m d -> In n d -> node_path m = node_path n -> m = n.
Proof.
  induction d as [|x d IH]; intros Hn Hm Hin E; [done|].
  cbn [map] in Hn. inversion Hn as [|? ? Hnotin Hn']; subst.
  destruct Hm as [->|Hm], Hin as [->|Hin]; auto.
  - exfalso. apply Hnotin. rewrite E. by apply in_map.
  - exfalso. apply Hnotin. rewrite <- E. by apply in_map.
Qed.

(** With unique paths, unlinking the path of a removable file succeeds. *)
Lemma unlink_succeeds d m :
  In m d -> is_file m = true -> unlink_ok m = true ->
  List.NoDup (map node_path d) -> unlink (node_path m) d <> None.
Proof.
  induction d as [|n d IH]; intros Hin Hf Hu Hn; [done|]. simpl.
  inversion Hn as [|? ? Hnotin Hn']; subst.
  destruct Hin as [->|Hin].
  - rewrite String.eqb_refl, Hf, Hu. done.
  - destruct (String.eqb (node_path n) (node_path m)) eqn:E.
    + apply String.eqb_eq in E. exfalso. apply Hnotin. rewrite E. by apply in_map.
    + specialize (IH Hin Hf Hu Hn'). by destruct (unlink (node_path m) d).
Qed.

Lemma unlink_size p d d' n :
  unlink p d = Some d' -> In n d -> node_path n = p ->
  List.NoDup (map node_path d) ->
  get_directory_size d' = (get_directory_size d - st_size n)%Z /\
  S (length d') = length d.
Proof.
  intros H Hin Hp Hn.
  destruct (unlink_Some p d d' H) as (pre & m & post & Hd & -> & Hmp & Hf & _ & _).
  assert (m = n) as ->.
  { apply (same_path_same_node d); auto; [|congruence]. rewrite Hd. apply in_elt. }
  subst d.
  rewrite !get_directory_size_app, get_directory_size_cons, Hf, !length_app. simpl. lia.
Qed.

Lemma unlink_removed_node p d d' a :
  unlink p d = Some d' -> In a d -> ~ In a d' ->
  node_path a = p /\ is_file a = true /\ unlink_ok a = true.
Proof.
  intros H Hin Hnot.
  destruct (unlink_Some p d d' H) as (pre & n & post & -> & -> & Hp & Hf & Hu & _).
  apply in_app_iff in Hin as [Hin|[<-|Hin]]; auto.
  - exfalso. apply Hnot, in_app_iff. by left.
  - exfalso. apply Hnot, in_app_iff. by right.
Qed.

Lemma collect_files_In f d :
  In f (collect_files d) <-> exists n, In n d /\ is_file n = true /\ f = info_of n.
Proof.
  unfold collect_files. rewrite in_map_iff. split.
  - intros (n & <- & Hn). apply filter_In in Hn as [Hn Hf]. by exists n.
  - intros (n & Hn & Hf & ->). exists n. split; [reflexivity|]. by apply filter_In.
Qed.

Lemma cleanup_loop_bookkeeping max_size files :
  forall cs dc d,
    List.NoDup (map node_path d) ->
    (forall f, In f files -> forall n, In n d -> node_path n = info.path f ->
               st_size n = info.size f) ->
    cs = get_directory_size d ->
    let '(d', dc', cs') := cleanup_loop max_size files cs dc d in
    cs' = get_directory_size d' /\ (length d' + dc' = length d + dc)%nat.
Proof.
  induction files as [|f files IH]; intros cs dc d Hn Hsz Hcs; simpl; [by split|].
  destruct (max_size <? cs)%Z; [|by split].
  destruct (unlink (info.path f) d) as [d1|] eqn:U.
  - destruct (unlink_Some _ _ _ U) as (pre & n & post & Hd & _ & Hp & _).
    assert (Hin : In n d) by (rewrite Hd; apply in_elt).
    destruct (unlink_size _ _ _ n U Hin Hp Hn) as [Hs Hl].
    specialize (IH (cs - info.size f)%Z (S dc) d1 (unlink_NoDup _ _ _ U Hn)).
    destruct (cleanup_loop max_size files (cs - info.size f) (S dc) d1) as [[d' dc'] cs'].
    destruct IH as [E1 E2].
    + intros g Hg m Hm. apply Hsz; [by right|]. by eapply unlink_In.
    + rewrite Hs, (Hsz f (or_introl eq_refl) n Hin Hp). lia.
    + split; [exact E1|]. lia.
  - specialize (IH cs dc d Hn).
    destruct (cleanup_loop max_size files cs dc d) as [[d' dc'] cs'].
    apply IH; [|exact Hcs]. intros g Hg. apply Hsz. by right.
Qed.

(** X2.  When the entries of the directory have distinct paths, the size
    the janitor reports at the end is the size of the directory it leaves,
    and [deleted_count] is the number of entries that are gone. *)
Theorem cleanup_bookkeeping (directory : list Node) (max_size : Z) :
  List.NoDup (map node_path directory) ->
  let '(directory', deleted_count, current_size) := cleanup_old_files directory max_size in
  current_size = get_directory_size directory' /\
  (length directory' + deleted_count = length directory)%nat.
Proof.
  intros Hn. unfold cleanup_old_files.
  pose proof (cleanup_loop_bookkeeping max_size (sort_by_mtime (collect_files directory))
    (fold_left (fun acc f => (acc + info.size f)%Z)
               (sort_by_mtime (collect_files directory)) 0%Z) 0%nat directory Hn) as H.
  destruct (cleanup_loop _ _ _ _ _) as [[d' dc'] cs'].
  destruct H as [E1 E2].
  - intros f Hf n Hin Hp.
    apply (Permutation_in _ (Permutation_sym (sort_by_mtime_perm _))) in Hf.
    apply collect_files_In in Hf as (n0 & Hin0 & _ & ->). simpl in Hp.
    by rewrite (same_path_same_node directory n n0 Hn Hin Hin0 Hp).
  - rewrite <- (files_size_perm _ _ (sort_by_mtime_perm _)). apply files_size_collect.
  - split; [exact E1|]. lia.
Qed.

Lemma cleanup_bookkeeping_witness :
  let '(directory', deleted_count, current_size) := cleanup_old_files sample_directory 60 in
  current_size = get_directory_size directory' /\
  (length directory' + deleted_count = length sample_directory)%nat.
Proof.
  apply (cleanup_bookkeeping sample_directory 60).
  repeat constructor; simpl; intuition discriminate.
Defined.

Lemma cleanup_loop_postcondition max_size files :
  forall cs dc d,
    List.NoDup (map node_path d) ->
    (forall n, In n d -> is_file n = true -> unlink_ok n = true ->
               In (node_path n) (map info.path files)) ->
    let '(d', _, cs') := cleanup_loop max_size files cs dc d in
    (cs' <= max_size)%Z \/
    (forall n, In n d' -> is_file n = true -> unlink_ok n = false).
Proof.
  induction files as [|f files IH]; intros cs dc d Hn Hpend; simpl.
  - right. intros n Hin Hf. destruct (unlink_ok n) eqn:Hu; [|done].
    destruct (Hpend n Hin Hf Hu).
  - destruct (Z.ltb_spec max_size cs) as [Hgt|Hle]; [|by left].
    destruct (unlink (info.path f) d) as [d1|] eqn:U.
    + apply IH; [by eapply unlink_NoDup|].
      intros n Hin Hf Hu.
      destruct (Hpend n (unlink_In _ _ _ _ U Hin) Hf Hu) as [E|Hin']; [|exact Hin'].
      exfalso. by apply (unlink_removes _ _ _ n Hn U Hin).
    + apply IH; [exact Hn|].
      intros n Hin Hf Hu. destruct (Hpend n Hin Hf Hu) as [E|Hin']; [|exact Hin'].
      exfalso. apply (unlink_succeeds d n Hin Hf Hu Hn). by rewrite <- E.
Qed.

(** X3.  When the entries have distinct paths, the janitor ends with the
    directory within its quota, or with nothing left in it that it could
    have removed: every file still there refused to be unlinked. *)
Theorem cleanup_postcondition (directory : list Node) (max_size : Z) :
  List.NoDup (map node_path directory) ->
  let '(directory', _, _) := cleanup_old_files directory max_size in
  (get_directory_size directory' <= max_size)%Z \/
  (forall n, In n directory' -> is_file n = true -> unlink_ok n = false).
Proof.
  intros Hn.
  pose proof (cleanup_bookkeeping directory max_size Hn) as Hb.
  unfold cleanup_old_files in *.
  pose proof (cleanup_loop_postcondition max_size (sort_by_mtime (collect_files directory))
    (fold_left (fun acc f => (acc + info.size f)%Z)
               (sort_by_mtime (collect_files directory)) 0%Z) 0%nat directory Hn) as H.
  destruct (cleanup_loop _ _ _ _ _) as [[d' dc'] cs'].
  destruct Hb as [<- _]. apply H.
  intros n Hin Hf _.
  apply in_map_iff. exists (info_of n). split; [reflexivity|].
  apply (Permutation_in _ (sort_by_mtime_perm _)), collect_files_In. by exists n.
Qed.

Lemma cleanup_postcondition_witness :
  let '(directory', _, _) := cleanup_old_files sample_directory 60 in
  (get_directory_size directory' <= 60)%Z \/
  (forall n, In n directory' -> is_file n = true -> unlink_ok n = false).
Proof.
  apply (cleanup_postcondition sample_directory 60).
  repeat constructor; simpl; intuition discriminate.
Defined.

(** The loop attempts a prefix of [files] and stops. *)
Lemma cleanup_loop_prefix max_size files :
  forall cs dc d,
    exists pre suf,
      files = pre ++ suf /\
      fst (fst (cleanup_loop max_size files cs dc d)) = attempt_unlinks pre d.
Proof.
  induction files as [|f files IH]; intros cs dc d; simpl.
  - by exists [], [].
  - destruct (max_size <? cs)%Z; [|by exists [], (f :: files)].
    destruct (unlink (info.path f) d) as [d1|] eqn:U.
    + destruct (IH (cs - info.size f)%Z (S dc) d1) as (pre & suf & -> & E).
      exists (f :: pre), suf. split; [reflexivity|]. unfold attempt_unlinks. simpl.
      by rewrite U.
    + destruct (IH cs dc d) as (pre & suf & -> & E).
      exists (f :: pre), suf. split; [reflexivity|]. unfold attempt_unlinks. simpl.
      by rewrite U.
Qed.

Lemma attempt_unlinks_cons f pre d :
  attempt_unlinks (f :: pre) d =
  attempt_unlinks pre (match unlink (info.path f) d with Some d' => d' | None => d end).
Proof. reflexivity. Qed.

Lemma attempt_unlinks_In pre : forall d m, In m (attempt_unlinks pre d) -> In m d.
Proof.
  induction pre as [|f pre IH]; intros d m Hin; [exact Hin|].
  rewrite attempt_unlinks_cons in Hin. apply IH in Hin.
  destruct (unlink (info.path f) d) as [d1|] eqn:U; [by eapply unlink_In|exact Hin].
Qed.

Lemma Node_eq_dec (x y : Node) : {x = y} + {x <> y}.
Proof.
  decide equality;
    first [ apply bool_dec | apply Z.eq_dec | apply String.string_dec
          | decide equality; first [apply Pos.eq_dec | apply Z.eq_dec] ].
Qed.

Lemma attempt_unlinks_removed pre :
  forall d a, In a d -> ~ In a (attempt_unlinks pre d) ->
    In (node_path a) (map info.path pre) /\ is_file a = true /\ unlink_ok a = true.
Proof.
  induction pre as [|f pre IH]; intros d a Hin Hnot; [done|].
  rewrite attempt_unlinks_cons in Hnot.
  destruct (unlink (info.path f) d) as [d1|] eqn:U.
  - destruct (in_dec Node_eq_dec a d1) as [Hin1|Hout1].
    + destruct (IH d1 a Hin1 Hnot) as (H1 & H2 & H3). repeat split; auto. by right.
    + destruct (unlink_removed_node _ _ _ a U Hin Hout1) as (H1 & H2 & H3).
      repeat split; auto. left. done.
  - destruct (IH d a Hin Hnot) as (H1 & H2 & H3). repeat split; auto. by right.
Qed.

Lemma attempt_unlinks_survivor pre :
  forall d b,
    List.NoDup (map node_path d) ->
    In b (attempt_unlinks pre d) -> is_file b = true -> unlink_ok b = true ->
    ~ In (node_path b) (map info.path pre).
Proof.
  induction pre as [|f pre IH]; intros d b Hn Hin Hf Hu; [by intros []|].
  rewrite attempt_unlinks_cons in Hin. intros [E|Hin'].
  - destruct (unlink (info.path f) d) as [d1|] eqn:U.
    + apply (unlink_removes _ _ _ b Hn U); [by eapply attempt_unlinks_In|done].
    + apply (unlink_succeeds d b (attempt_unlinks_In _ _ _ Hin) Hf Hu Hn). by rewrite <- E.
  - destruct (unlink (info.path f) d) as [d1|] eqn:U.
    + by apply (IH d1 b (unlink_NoDup _ _ _ U Hn) Hin Hf Hu).
    + by apply (IH d b Hn Hin Hf Hu).
Qed.

Lemma StronglySorted_app_le (pre suf : list info.t) x y :
  StronglySorted mtime_le (pre ++ suf) -> In x pre -> In y suf -> mtime_le x y.
Proof.
  induction pre as [|z pre IH]; intros Hs Hx Hy; [done|].
  cbn [app] in Hs. inversion Hs as [|? ? Hs' Hall]; subst.
  destruct Hx as [->|Hx]; [|by apply IH].
  rewrite Forall_forall in Hall. apply Hall, in_app_iff. by right.
Qed.

(** X4.  The janitor evicts oldest first: with distinct paths, a file it
    removed is never newer than a removable file it left in place. *)
Theorem cleanup_oldest_first (directory : list Node) (max_size : Z) (a b : Node) :
  List.NoDup (map node_path directory) ->
  let directory' := fst (fst (cleanup_old_files directory max_size)) in
  In a directory -> ~ In a directory' ->
  In b directory' -> is_file b = true -> unlink_ok b = true ->
  st_mtime a <= st_mtime b.
Proof.
  intros Hn directory' Ha Hgone Hb Hfb Hub. subst directory'.
  unfold cleanup_old_files in *.
  set (files := sort_by_mtime (collect_files directory)) in *.
  destruct (cleanup_loop_prefix max_size files
              (fold_left (fun acc f => (acc + info.size f)%Z) files 0%Z) 0%nat directory)
    as (pre & suf & Hfiles & E).
  rewrite E in *.
  destruct (attempt_unlinks_removed pre directory a Ha Hgone) as (Hpa & Hfa & _).
  pose proof (attempt_unlinks_survivor pre directory b Hn Hb Hfb Hub) as Hpb.
  assert (Hbd : In b directory) by (by eapply attempt_unlinks_In).
  assert (Hmem : forall f, In f files -> exists n, In n directory /\ is_file n = true /\ f = info_of n).
  { intros f Hf. apply collect_files_In.
    by apply (Permutation_in _ (Permutation_sym (sort_by_mtime_perm _))). }
  apply in_map_iff in Hpa as (fa & Epa & Hfa_in).
  assert (fa = info_of a) as ->.
  { destruct (Hmem fa) as (n & Hin & _ & ->); [rewrite Hfiles; apply in_app_iff; by left|].
    simpl in Epa. by rewrite (same_path_same_node directory n a Hn Hin Ha Epa). }
  assert (Hsuf : In (info_of b) suf).
  { assert (Hfb_in : In (info_of b) files).
    { apply (Permutation_in _ (sort_by_mtime_perm _)), collect_files_In. by exists b. }
    rewrite Hfiles in Hfb_in. apply in_app_iff in Hfb_in as [Hpre|Hs]; [|exact Hs].
    exfalso. apply Hpb. apply in_map_iff. by exists (info_of b). }
  pose proof (sort_by_mtime_sorted (collect_files directory)) as Hs.
  fold files in Hs. rewrite Hfiles in Hs.
  exact (StronglySorted_app_le pre suf _ _ Hs Hfa_in Hsuf).
Qed.

Lemma cleanup_oldest_first_witness :
  st_mtime (mkNode "outputs/a_model.glb" true 11 50 true) <=
  st_mtime (mkNode "outputs/c_model.stl" true 30 25 true).
Proof.
  apply (cleanup_oldest_first sample_directory 60).
  - repeat constructor; simpl; intuition discriminate.
  - simpl. auto 6.
  - vm_compute. intuition discriminate.
  - vm_compute. auto.
  - reflexivity.
  - reflexivity.
Defined.

Lemma attempt_unlinks_sublist pre : forall d, sublist (attempt_unlinks pre d) d.
Proof.
  induction pre as [|f pre IH]; intros d; [reflexivity|].
  rewrite attempt_unlinks_cons.
  destruct (unlink (info.path f) d) as [d1|] eqn:U; [|apply IH].
  etrans; [apply IH|]. by eapply unlink_sublist.
Qed.

(** X5.  The janitor only ever removes files that let themselves be
    unlinked: directories and files whose unlink fails stay, and what stays
    keeps its order. *)
Theorem cleanup_keeps_the_rest (directory : list Node) (max_size : Z) :
  let directory' := fst (fst (cleanup_old_files directory max_size)) in
  sublist directory' directory /\
  forall n, In n directory -> is_file n = false \/ unlink_ok n = false -> In n directory'.
Proof.
  intros directory'. subst directory'. unfold cleanup_old_files.
  destruct (cleanup_loop_prefix max_size (sort_by_mtime (collect_files directory))
              (fold_left (fun acc f => (acc + info.size f)%Z)
                         (sort_by_mtime (collect_files directory)) 0%Z) 0%nat directory)
    as (pre & suf & _ & ->).
  split; [apply attempt_unlinks_sublist|].
  intros n Hin Hkeep.
  destruct (in_dec Node_eq_dec n (attempt_unlinks pre directory)) as [H|H]; [exact H|].
  destruct (attempt_unlinks_removed pre directory n Hin H) as (_ & Hf & Hu).
  destruct Hkeep; congruence.
Qed.

Lemma cleanup_loop_minimal max_size files :
  forall cs dc d,
    List.NoDup (map node_path d) ->
    let '(d', dc', cs') := cleanup_loop max_size files cs dc d in
    (dc <= dc')%nat /\
    (dc' = dc -> d' = d /\ cs' = cs) /\
    ((dc < dc')%nat ->
     exists f, In f files /\ (max_size < cs' + info.size f)%Z /\
               forall m, In m d' -> node_path m <> info.path f).
Proof.
  induction files as [|f files IH]; intros cs dc d Hn; simpl.
  - split; [lia|]. split; [done|]. lia.
  - destruct (Z.ltb_spec max_size cs) as [Hgt|Hle]; [|split; [lia|split; [done|lia]]].
    destruct (unlink (info.path f) d) as [d1|] eqn:U.
    + specialize (IH (cs - info.size f)%Z (S dc) d1 (unlink_NoDup _ _ _ U Hn)).
      destruct (cleanup_loop max_size files (cs - info.size f) (S dc) d1) as [[d' dc'] cs'].
      destruct IH as (H1 & H2 & H3). split; [lia|]. split; [lia|]. intros _.
      destruct (Nat.eq_dec dc' (S dc)) as [E|E].
      * destruct (H2 E) as [-> ->]. exists f. split; [by left|]. split; [lia|].
        intros m Hm. by apply (unlink_removes _ _ _ m Hn U).
      * destruct H3 as (g & Hg & Hsz & Hgone); [lia|].
        exists g. split; [by right|]. by split.
    + specialize (IH cs dc d Hn).
      destruct (cleanup_loop max_size files cs dc d) as [[d' dc'] cs'].
      destruct IH as (H1 & H2 & H3). split; [lia|]. split; [done|]. intros Hlt.
      destruct (H3 Hlt) as (g & Hg & Hsz & Hgone).
      exists g. split; [by right|]. by split.
Qed.

(** X6.  The janitor removes no more than it has to: with distinct paths,
    if it removed anything then some file it removed would, put back, take
    the directory over its quota again. *)
Theorem cleanup_no_more_than_needed (directory : list Node) (max_size : Z) :
  List.NoDup (map node_path directory) ->
  (0 < snd (fst (cleanup_old_files directory max_size)))%nat ->
  exists n, In n directory /\ is_file n = true /\
            ~ In n (fst (fst (cleanup_old_files directory max_size))) /\
            (max_size <
             get_directory_size (fst (fst (cleanup_old_files directory max_size))) + st_size n)%Z.
Proof.
  intros Hn.
  pose proof (cleanup_bookkeeping directory max_size Hn) as Hb.
  unfold cleanup_old_files in *.
  pose proof (cleanup_loop_minimal max_size (sort_by_mtime (collect_files directory))
    (fold_left (fun acc f => (acc + info.size f)%Z)
               (sort_by_mtime (collect_files directory)) 0%Z) 0%nat directory Hn) as H.
  destruct (cleanup_loop _ _ _ _ _) as [[d' dc'] cs'].
  destruct Hb as [Hcs _]. destruct H as (_ & _ & H). cbn [fst snd]. intros Hpos.
  rewrite <- Hcs.
  destruct (H Hpos) as (f & Hf & Hsz & Hgone).
  apply (Permutation_in _ (Permutation_sym (sort_by_mtime_perm _))) in Hf.
  apply collect_files_In in Hf as (n & Hin & Hfile & ->).
  exists n. repeat split; auto. intros Hin'. by apply (Hgone n Hin').
Qed.

Lemma cleanup_no_more_than_needed_witness :
  exists n, In n sample_directory /\ is_file n = true /\
            ~ In n (fst (fst (cleanup_old_files sample_directory 60))) /\
            (60 <
             get_directory_size (fst (fst (cleanup_old_files sample_directory 60))) + st_size n)%Z.
Proof.
  apply (cleanup_no_more_than_needed sample_directory 60).
  - repeat constructor; simpl; intuition discriminate.
  - vm_compute. lia.
Defined.

(** ** What the mesh service touches on disk *)

Ltac run_service :=
  repeat match goal with
         | |- context [match ?x with _ => _ end] =>
             match x with
             | context [match _ with _ => _ end] => fail 1
             | _ => destruct x eqn:?
             end
         end.

(** X7.  [check_printability] only reads: whatever it returns or raises,
    the disk is as it was. *)
Theorem check_printability_read_only (L : Trimesh_lib) (disk : gmap string (File L))
    (stl_path : Path) :
  snd (check_printability L stl_path disk) = disk.
Proof.
  unfold check_printability, bind, trimesh_load, lift, ret. run_service; reflexivity.
Qed.

(** X8.  Each writing operation touches at most the one path it is given:
    every other file on the disk is as it was, whether the call returns or
    raises. *)
Theorem writers_touch_one_path (L : Trimesh_lib) (disk : gmap string (File L))
    (input_path target other : Path) (scale_percent : Q) :
  other <> target ->
  snd (_convert_to_stl_sync L input_path target disk) !! other = disk !! other /\
  snd (_optimize_mesh_sync L target disk) !! other = disk !! other /\
  snd (scale_model L target scale_percent disk) !! other = disk !! other.
Proof.
  intros Hne. repeat split.
  - unfold _convert_to_stl_sync, bind, trimesh_load, lift, export.
    run_service; simpl; try reflexivity; by apply lookup_insert_ne.
  - unfold _optimize_mesh_sync, bind, trimesh_load, export, raise, ret.
    run_service; simpl; try reflexivity; by apply lookup_insert_ne.
  - unfold scale_model, bind, trimesh_load, export, ret.
    run_service; simpl; try reflexivity; by apply lookup_insert_ne.
Qed.

Lemma writers_touch_one_path_witness :
  snd (_convert_to_stl_sync ref_lib "a_model.glb" "a_model.stl"
         (<["a_model.glb" := ModelFile (Geom tetra)]> ∅)) !! "a_model.glb" =
    (<["a_model.glb" := ModelFile (Geom tetra)]> ∅ : gmap string RefFile) !! "a_model.glb" /\
  snd (_optimize_mesh_sync ref_lib "a_model.stl"
         (<["a_model.glb" := ModelFile (Geom tetra)]> ∅)) !! "a_model.glb" =
    (<["a_model.glb" := ModelFile (Geom tetra)]> ∅ : gmap string RefFile) !! "a_model.glb" /\
  snd (scale_model ref_lib "a_model.stl" 150
         (<["a_model.glb" := ModelFile (Geom tetra)]> ∅)) !! "a_model.glb" =
    (<["a_model.glb" := ModelFile (Geom tetra)]> ∅ : gmap string RefFile) !! "a_model.glb".
Proof.
  apply (writers_touch_one_path ref_lib _ "a_model.glb" "a_model.stl" "a_model.glb" 150).
  discriminate.
Defined.

(** X9.  A call that raises leaves no model behind: the three writing
    operations write as their last step, so after a failed load, an empty
    scene or a missing bounding box the disk is as it was, and after a
    failed encoding the only change is that the target, already opened for
    writing, is an empty file. *)
Theorem failed_call_leaves_no_model (L : Trimesh_lib) (disk : gmap string (File L))
    (input_path target : Path) (scale_percent : Q) :
  (forall e, fst (_convert_to_stl_sync L input_path target disk) = Raise e ->
             snd (_convert_to_stl_sync L input_path target disk) = disk \/
             snd (_convert_to_stl_sync L input_path target disk) =
               <[target := empty_file L]> disk) /\
  (forall e, fst (_optimize_mesh_sync L target disk) = Raise e ->
             snd (_optimize_mesh_sync L target disk) = disk \/
             snd (_optimize_mesh_sync L target disk) = <[target := empty_file L]> disk) /\
  (forall e, fst (scale_model L target scale_percent disk) = Raise e ->
             snd (scale_model L target scale_percent disk) = disk \/
             snd (scale_model L target scale_percent disk) =
               <[target := empty_file L]> disk).
Proof.
  repeat split; intros e.
  - unfold _convert_to_stl_sync, bind, trimesh_load, lift, export.
    run_service; simpl; try done; auto.
  - unfold _optimize_mesh_sync, bind, trimesh_load, export, raise, ret.
    run_service; simpl; try done; auto.
  - unfold scale_model, bind, trimesh_load, export, ret.
    run_service; simpl; try done; auto.
Qed.

(** ** More on the printability report *)

Lemma qmin_le_qmax x l : qmin_list x l <= qmax_list x l.
Proof.
  eapply Qle_trans; [apply (qmin_list_lb x l x)|apply (qmax_list_ub x l x)]; by left.
Qed.

Lemma bounds_ordered g lo hi :
  bounds g = Some (lo, hi) -> vx lo <= vx hi /\ vy lo <= vy hi /\ vz lo <= vz hi.
Proof.
  unfold bounds. destruct (bounded_points g) as [|p ps]; [done|]. intros [= <- <-].
  unfold min_corner, max_corner. cbn [vx vy vz fst snd].
  repeat split; apply qmin_le_qmax.
Qed.

(** X10.  A report never carries a negative dimension, its counts are the
    lengths of the face and vertex buffers of the loaded mesh, and a mesh
    reported printable is reported with a volume. *)
Theorem report_is_consistent (L : Trimesh_lib) (disk : gmap string (File L))
    (stl_path : Path) (f : File L) (g : Geometry) (r : report.t) :
  disk !! stl_path = Some f ->
  parse L f = inr (Geom g) ->
  fst (check_printability L stl_path disk) = Ret (ReportDict r) ->
  0 <= vx (report.dimensions_mm r) /\
  0 <= vy (report.dimensions_mm r) /\
  0 <= vz (report.dimensions_mm r) /\
  report.face_count r = length (faces g) /\
  report.vertex_count r = length (vertices g) /\
  (report.printable r = true ->
   report.is_watertight r = true /\ report.is_winding_consistent r = true /\
   report.volume_mm3 r = Some (volume L g)).
Proof.
  intros Hd Hp. unfold check_printability, bind.
  rewrite (trimesh_load_ok L disk stl_path f _ Hd Hp).
  destruct (isinstance_Trimesh g); [|done].
  unfold lift, printability. destruct (bounds g) as [[lo hi]|] eqn:Hb; [|done].
  intros [= <-]. cbn.
  destruct (bounds_ordered g lo hi Hb) as (Hx & Hy & Hz).
  destruct lo as [[? ?] ?], hi as [[? ?] ?]. cbn [vx vy vz fst snd] in *.
  repeat split; try (unfold Qminus; rewrite <- Qle_minus_iff; assumption).
  - by destruct (is_watertight L g).
  - destruct (is_watertight L g), (is_winding_consistent L g); done.
  - by destruct (is_watertight L g).
Qed.

Lemma report_is_consistent_witness :
  0 <= vx (4, 2, 1) /\
  0 <= vy (4, 2, 1) /\
  0 <= vz (4, 2, 1) /\
  4%nat = length (faces tetra) /\
  4%nat = length (vertices tetra) /\
  (true = true ->
   true = true /\ true = true /\ Some (8 # 6) = Some (volume ref_lib tetra)).
Proof.
  apply (report_is_consistent ref_lib (<["toy.glb" := ModelFile (Geom tetra)]> ∅)
           "toy.glb" (ModelFile (Geom tetra)) tetra
           (report.mk true true (Some (8 # 6)) (4, 2, 1) 4 4 true)).
  - apply lookup_insert_eq.
  - reflexivity.
  - vm_compute. reflexivity.
Defined.

(** ** More on rescaling and normalisation *)

Lemma scaled_bounds_dimensions s g g' :
  scaled_bounds s (bounds g) (bounds g') ->
  same_dimensions (dimensions g') (option_map (vscale s) (dimensions g)).
Proof.
  unfold scaled_bounds, same_dimensions, dimensions.
  destruct (bounds g) as [[lo hi]|], (bounds g') as [[lo' hi']|]; try done.
  intros (H1 & H2). cbn [option_map].
  eapply V3eq_trans; [apply (V3eq_vsub _ _ _ _ H2 H1)|].
  destruct lo as [[? ?] ?], hi as [[? ?] ?].
  unfold V3eq, vsub, vscale. cbn [vx vy vz fst snd]. repeat split; ring.
Qed.

Lemma scaled_bounds_wd s s' b b' :
  s == s' -> scaled_bounds s b b' -> scaled_bounds s' b b'.
Proof.
  intros Hs. unfold scaled_bounds. destruct b as [[lo hi]|], b' as [[lo' hi']|]; try done.
  intros (H1 & H2). split.
  - eapply V3eq_trans; [exact H1|]. apply vscale_V3eq; [exact Hs|apply V3eq_refl].
  - eapply V3eq_trans; [exact H2|]. apply vscale_V3eq; [exact Hs|apply V3eq_refl].
Qed.

(** X11.  On a library whose STL files keep the triangles of a mesh with a
    face, [scale_model] of a stored mesh with a face, with a percentage
    that is not negative, returns and leaves a file whose mesh has each
    bounding-box dimension multiplied by [scale_percent / 100]. *)
Theorem scale_model_scales_dimensions (L : Trimesh_lib) (disk : gmap string (File L))
    (stl_path : Path) (f0 : File L) (m0 : Geometry) (scale_percent : Q) :
  stl_round_trip L ->
  disk !! stl_path = Some f0 ->
  parse L f0 = inr (Geom m0) ->
  isinstance_Trimesh m0 = true ->
  mesh_valid m0 ->
  faces m0 <> [] ->
  0 <= scale_percent ->
  exists d1 m1,
    scale_model L stl_path scale_percent disk = (Ret stl_path, d1) /\
    trimesh_load L stl_path d1 = (Ret (Geom m1), d1) /\
    isinstance_Trimesh m1 = true /\
    same_dimensions (dimensions m1)
                    (option_map (vscale (scale_percent / 100)) (dimensions m0)).
Proof.
  intros Hlaw Hd Hp Ht Hv Hne Hpos.
  destruct (Hlaw (apply_scale (scale_percent / 100) m0) Ht (mesh_valid_apply_scale _ _ Hv)
                 (faces_apply_scale_nonempty _ _ Hne))
    as (f1 & m1 & He1 & Hp1 & Ht1 & Hv1 & Htri1).
  exists (<[stl_path := f1]> disk), m1.
  split; [by rewrite (scale_model_on_trimesh L disk stl_path f0 m0 _ Hd Hp Ht), He1|].
  split; [apply (trimesh_load_ok L _ stl_path f1); [apply lookup_insert_eq|exact Hp1]|].
  split; [exact Ht1|].
  assert (Hs : 0 <= scale_percent / 100).
  { apply Qle_shift_div_l; [done|]. by rewrite Qmult_0_l. }
  pose proof (scaled_bounds_apply_scale (scale_percent / 100) m0 Hs) as B1.
  pose proof (bounds_same_triangles (apply_scale (scale_percent / 100) m0) m1
                Ht (mesh_valid_apply_scale _ _ Hv) Ht1 Hv1 Htri1) as B2.
  apply scaled_bounds_dimensions.
  eapply scaled_bounds_wd; [|exact (scaled_bounds_compose _ _ _ _ _ B1 B2)]. ring.
Qed.

Lemma scale_model_scales_dimensions_witness :
  exists d1 m1,
    scale_model ref_lib "toy.stl" 150 (<["toy.stl" := StlFile (triangles tetra)]> ∅) =
      (Ret "toy.stl"%string, d1) /\
    trimesh_load ref_lib "toy.stl" d1 = (Ret (Geom m1), d1) /\
    isinstance_Trimesh m1 = true /\
    same_dimensions (dimensions m1)
      (option_map (vscale (150 / 100)) (dimensions (mesh_of_triangles (triangles tetra)))).
Proof.
  apply (scale_model_scales_dimensions ref_lib _ "toy.stl" (StlFile (triangles tetra))).
  - exact ref_lib_stl_round_trip.
  - apply lookup_insert_eq.
  - reflexivity.
  - reflexivity.
  - apply mesh_valid_mesh_of_triangles.
  - discriminate.
  - vm_compute. discriminate.
Defined.





(** ** Scenes of any size *)

Lemma concatenate_from_triangles (pre : list V3) ms :
  Forall mesh_valid ms ->
  map (triangle_of (pre ++ fst (concatenate_from (length pre) ms)))
      (snd (concatenate_from (length pre) ms)) =
  flat_map triangles ms.
Proof.
  revert pre. induction ms as [|m ms IH]; intros pre Hv; [reflexivity|].
  inversion Hv as [|? ? Hm Hms]; subst. cbn [concatenate_from flat_map].
  specialize (IH (pre ++ vertices m) Hms). rewrite length_app in IH.
  destruct (concatenate_from (length pre + length (vertices m)) ms) as [vs fs].
  cbn [fst snd] in *. rewrite map_app, map_map. f_equal.
  - unfold triangles. apply map_ext_in. intros f Hf.
    rewrite triangle_of_app_r. apply triangle_of_app_l.
    unfold mesh_valid in Hm. rewrite Forall_forall in Hm. by apply Hm.
  - rewrite <- IH. by rewrite <- app_assoc.
Qed.

(** X13.  A scene with at least one [Trimesh] member, all of them valid,
    flattens to a valid [Trimesh] whose triangles are those of the members,
    in scene order; the other members contribute nothing. *)
Theorem scene_flattening_general (geometry : list (string * Geometry)) :
  List.filter isinstance_Trimesh (map snd geometry) <> [] ->
  Forall mesh_valid (List.filter isinstance_Trimesh (map snd geometry)) ->
  exists m,
    flatten (Scene geometry) = Ret m /\
    isinstance_Trimesh m = true /\
    mesh_valid m /\
    triangles m = flat_map triangles (List.filter isinstance_Trimesh (map snd geometry)) /\
    length (faces m) =
      fold_right (fun g acc => (length (faces g) + acc)%nat) 0%nat
                 (List.filter isinstance_Trimesh (map snd geometry)).
Proof.
  intros Hne Hv. set (ms := List.filter isinstance_Trimesh (map snd geometry)) in *.
  exists (concatenate ms). split.
  { simpl. unfold flatten_scene. fold ms. by destruct ms. }
  split; [unfold concatenate; by destruct (concatenate_from 0 ms)|].
  split; [by apply concatenate_valid|]. split.
  - pose proof (concatenate_from_triangles [] ms Hv) as H.
    unfold concatenate, triangles. cbn [length app] in H.
    by destruct (concatenate_from 0 ms).
  - pose proof (concatenate_from_faces_length 0 ms) as H.
    unfold concatenate. by destruct (concatenate_from 0 ms).
Qed.

Lemma scene_flattening_general_witness :
  exists m,
    flatten (Scene [("a"%string, sheet); ("p"%string, cloud);
                    ("b"%string, tetra); ("c"%string, open_tetra)]) = Ret m /\
    isinstance_Trimesh m = true /\
    mesh_valid m /\
    triangles m = flat_map triangles [sheet; tetra; open_tetra] /\
    length (faces m) = 8%nat.
Proof.
  apply (scene_flattening_general
           [("a"%string, sheet); ("p"%string, cloud);
            ("b"%string, tetra); ("c"%string, open_tetra)]).
  - discriminate.
  - repeat constructor.
Defined.

(** ** Which repair calls are made *)

Lemma Call_eqb_eq a b : Call_eqb a b = true -> a = b.
Proof. by destruct a, b. Qed.

Lemma only_calls_not_logged allowed c l :
  only_calls allowed l = true -> existsb (Call_eqb c) allowed = false -> logged c l = false.
Proof.
  unfold only_calls, logged. induction l as [|[d g] l IH]; intros H Hc; [reflexivity|].
  cbn [map fst forallb existsb] in *. apply andb_true_iff in H as [H1 H2].
  rewrite (IH H2 Hc), orb_false_r.
  destruct (Call_eqb c d) eqn:E; [|reflexivity].
  apply Call_eqb_eq in E as ->. congruence.
Qed.

Lemma logged_app c l1 l2 : logged c (l1 ++ l2) = logged c l1 || logged c l2.
Proof. unfold logged. by rewrite map_app, existsb_app. Qed.

Ltac block_log :=
  eexists; split; [rewrite <- ?app_assoc; reflexivity|];
  cbn; repeat split; intros; congruence.

Lemma fix_orientation_log L s :
  exists l,
    calls (snd (fix_orientation L s)) = calls s ++ l /\
    only_calls [CallFixNormals; CallFixInversion; CallFixWinding] l = true /\
    (logged CallFixInversion l = true -> snd (fix_normals L (mesh s)) = None) /\
    (logged CallFixWinding l = true ->
     snd (fix_inversion L (fst (fix_normals L (mesh s)))) = None).
Proof.
  unfold fix_orientation, bind, try_except, pass, ret, mutate.
  destruct (fix_normals L (mesh s)) as [g1 [e1|]] eqn:E1; cbn [mesh calls fst snd].
  - block_log.
  - destruct (fix_inversion L g1) as [g2 [e2|]] eqn:E2; cbn [mesh calls fst snd].
    + block_log.
    + destruct (fix_winding L g2) as [g3 [e3|]] eqn:E3; cbn [mesh calls fst snd]; block_log.
Qed.

Lemma fill_holes_if_open_log L s :
  exists l,
    calls (snd (fill_holes_if_open L s)) = calls s ++ l /\
    only_calls [CallIsWatertight; CallFillHoles] l = true /\
    (logged CallFillHoles l = true -> is_watertight L (mesh s) = false).
Proof.
  unfold fill_holes_if_open, bind, try_except, pass, ret, mutate, query.
  cbn [mesh calls fst snd].
  destruct (is_watertight L (mesh s)) eqn:E; cbn [negb mesh calls fst snd].
  - block_log.
  - destruct (fill_holes L (mesh s)) as [g1 [e1|]]; cbn [mesh calls fst snd]; block_log.
Qed.

Lemma cleanup_log L s :
  exists l,
    calls (snd (cleanup L s)) = calls s ++ l /\
    only_calls [CallProcess; CallMergeVertices; CallNondegenerateFaces; CallUpdateFaces] l
      = true /\
    (logged CallMergeVertices l = true -> snd (process L (mesh s)) <> None) /\
    (logged CallUpdateFaces l = true ->
     snd (merge_vertices L (fst (process L (mesh s)))) = None).
Proof.
  unfold cleanup, bind, try_except, pass, ret, mutate, query.
  destruct (process L (mesh s)) as [g1 [e1|]] eqn:E1; cbn [mesh calls fst snd].
  - destruct (merge_vertices L g1) as [g2 [e2|]] eqn:E2; cbn [mesh calls fst snd].
    + block_log.
    + destruct (nondegenerate_faces L g2) as [e3|mask] eqn:E3; cbn [mesh calls fst snd].
      * block_log.
      * destruct (update_faces L mask g2) as [g4 [e4|]]; cbn [mesh calls fst snd]; block_log.
  - block_log.
Qed.

Lemma repair_as_blocks (L : Trimesh_lib) (g : Geometry) :
  repair L {| mesh := g; calls := [] |} =
    (Ret tt,
     snd (cleanup L (snd (fill_holes_if_open L
            (snd (fix_orientation L {| mesh := g; calls := [] |})))))).
Proof.
  unfold repair, bind.
  pose proof (fix_orientation_returns L {| mesh := g; calls := [] |}) as H1.
  destruct (fix_orientation L {| mesh := g; calls := [] |}) as [r1 t1]. simpl in *. subst r1.
  pose proof (fill_holes_if_open_returns L t1) as H2.
  destruct (fill_holes_if_open L t1) as [r2 t2]. simpl in *. subst r2.
  pose proof (cleanup_returns L t2) as H3.
  destruct (cleanup L t2) as [r3 t3]. simpl in *. by subst r3.
Qed.

(** X14.  The repair pass makes its calls in a fixed discipline:
    [fill_holes] is called only on a mesh that trimesh reports as not
    watertight after the orientation block; the [merge_vertices] fallback
    is called only when [process] raised; and inversion correction is
    attempted only after normal correction returned normally. *)
Theorem repair_call_discipline (L : Trimesh_lib) (g : Geometry) :
  let s0 := {| mesh := g; calls := [] |} in
  let s1 := snd (fix_orientation L s0) in
  let s2 := snd (fill_holes_if_open L s1) in
  let s3 := snd (repair L s0) in
  (called CallFillHoles s3 = true -> is_watertight L (mesh s1) = false) /\
  (called CallMergeVertices s3 = true -> snd (process L (mesh s2)) <> None) /\
  (called CallFixInversion s3 = true -> snd (fix_normals L g) = None).
Proof.
  intros s0 s1 s2 s3.
  assert (E3 : s3 = snd (cleanup L s2)).
  { unfold s3, s2, s1, s0. by rewrite (repair_as_blocks L g). }
  destruct (fix_orientation_log L s0) as (l1 & C1 & O1 & F1 & _).
  destruct (fill_holes_if_open_log L s1) as (l2 & C2 & O2 & F2).
  destruct (cleanup_log L s2) as (l3 & C3 & O3 & F3 & _).
  assert (Hcalls : calls s3 = l1 ++ l2 ++ l3).
  { rewrite E3, C3. change (calls s2) with (calls (snd (fill_holes_if_open L s1))).
    rewrite C2. change (calls s1) with (calls (snd (fix_orientation L s0))).
    rewrite C1. simpl. by rewrite <- app_assoc. }
  unfold called. change (existsb (Call_eqb ?c) (map fst ?l)) with (logged c l).
  rewrite Hcalls, !logged_app.
  rewrite (only_calls_not_logged _ CallFillHoles l1 O1 eq_refl).
  rewrite (only_calls_not_logged _ CallFillHoles l3 O3 eq_refl).
  rewrite (only_calls_not_logged _ CallMergeVertices l1 O1 eq_refl).
  rewrite (only_calls_not_logged _ CallMergeVertices l2 O2 eq_refl).
  rewrite (only_calls_not_logged _ CallFixInversion l2 O2 eq_refl).
  rewrite (only_calls_not_logged _ CallFixInversion l3 O3 eq_refl).
  rewrite !orb_false_r. cbn [orb]. auto.
Qed.

(** ** The pipeline of [generate_3d] and the endpoints *)

Lemma convert_to_stl_on_mesh (L : Trimesh_lib) (disk : gmap string (File L))
    (model_path output_dir : Path) (task_id : string) (f : File L) (loaded : Loaded)
    (g g1 : Geometry) (f1 : File L) :
  disk !! model_path = Some f ->
  parse L f = inr loaded ->
  flatten loaded = Ret g ->
  scale_to_print_size g = Ret g1 ->
  export_stl L (center L g1) = inr f1 ->
  convert_to_stl L model_path output_dir task_id disk =
    (Ret (joinpath output_dir (task_id ++ "_model.stl")%string),
     <[joinpath output_dir (task_id ++ "_model.stl")%string := f1]> disk).
Proof.
  intros Hd Hp Hfl Hs He. unfold convert_to_stl, _convert_to_stl_sync, bind.
  rewrite (trimesh_load_ok L disk model_path f _ Hd Hp).
  unfold lift. rewrite Hfl, Hs. unfold export. by rewrite He.
Qed.

Lemma normalisation_shape_aux (L : Trimesh_lib) (g g1 : Geometry) :
  scale_to_print_size g = Ret g1 ->
  class (center L g1) = class g /\ (mesh_valid g -> mesh_valid (center L g1)).
Proof.
  unfold scale_to_print_size. destruct (bounds g) as [[lo hi]|]; [|done].
  destruct (Qlt_le_dec 0 (np_max (vsub hi lo))); intros [= <-].
  - split; [reflexivity|]. intros Hv. by apply mesh_valid_translate, mesh_valid_apply_scale.
  - split; [reflexivity|]. apply mesh_valid_translate.
Qed.

Lemma normalisation_keeps_a_face (L : Trimesh_lib) (g g1 : Geometry) :
  scale_to_print_size g = Ret g1 -> faces g <> [] -> faces (center L g1) <> [].
Proof.
  unfold scale_to_print_size. destruct (bounds g) as [[lo hi]|]; [|done].
  destruct (Qlt_le_dec 0 (np_max (vsub hi lo))); intros [= <-] Hne.
  - unfold center. cbn [faces translate]. by apply faces_apply_scale_nonempty.
  - exact Hne.
Qed.

(** X15.  On a library whose STL files keep the triangles of a mesh with a
    face, converting a valid mesh that has a bounding box succeeds; from
    then on the task is reported completed and its STL can be downloaded;
    and the repair that follows finds the file, loads a [Trimesh] from it
    and so ends in an export to the same path: the pipeline returns the
    path with the repaired mesh in the file when that export succeeds, and
    raises what the export raises when it does not. *)
Theorem pipeline_hands_over (L : Trimesh_lib) (OUTPUT_DIR : Path)
    (disk : gmap string (File L)) (model_path : Path) (task_id : string)
    (f : File L) (loaded : Loaded) (g : Geometry) (lo hi : V3) :
  stl_round_trip L ->
  disk !! model_path = Some f ->
  parse L f = inr loaded ->
  flatten loaded = Ret g ->
  isinstance_Trimesh g = true ->
  mesh_valid g ->
  bounds g = Some (lo, hi) ->
  let stl_path := joinpath OUTPUT_DIR (task_id ++ "_model.stl")%string in
  exists d1 m,
    convert_to_stl L model_path OUTPUT_DIR task_id disk = (Ret stl_path, d1) /\
    fst (get_status L OUTPUT_DIR task_id d1) = "completed"%string /\
    (exists r, download_stl L OUTPUT_DIR task_id d1 = inr r /\ response_path r = stl_path) /\
    trimesh_load L stl_path d1 = (Ret (Geom m), d1) /\
    isinstance_Trimesh m = true /\
    (forall f', export_stl L (mesh (snd (repair L {| mesh := m; calls := [] |}))) = inr f' ->
       convert_and_optimize L OUTPUT_DIR model_path task_id disk =
         (Ret stl_path, <[stl_path := f']> d1)) /\
    (forall e, export_stl L (mesh (snd (repair L {| mesh := m; calls := [] |}))) = inl e ->
       fst (convert_and_optimize L OUTPUT_DIR model_path task_id disk) = Raise e).
Proof.
  intros Hlaw Hd Hp Hfl Ht Hv Hb stl_path.
  destruct (scale_to_print_size_cases g lo hi Hb) as (g1 & Hs & Hg1).
  destruct (normalisation_shape_aux L g g1 Hs) as (Hc & Hval).
  assert (Ht1 : isinstance_Trimesh (center L g1) = true).
  { unfold isinstance_Trimesh in *. by rewrite Hc. }
  assert (Hne : faces (center L g1) <> []).
  { apply (normalisation_keeps_a_face L g g1 Hs). by apply (bounds_some_faces g (lo, hi)). }
  destruct (Hlaw (center L g1) Ht1 (Hval Hv) Hne) as (f1 & m & He & Hp1 & Htm & Hvm & _).
  pose proof (convert_to_stl_on_mesh L disk model_path OUTPUT_DIR task_id f loaded g g1 f1
                Hd Hp Hfl Hs He) as Hconv.
  fold stl_path in Hconv.
  assert (Hl : <[stl_path := f1]> disk !! stl_path = Some f1) by apply lookup_insert_eq.
  exists (<[stl_path := f1]> disk), m. split; [exact Hconv|].
  split; [unfold get_status; fold stl_path; by rewrite Hl|].
  split; [unfold download_stl; fold stl_path; rewrite Hl; by eexists|].
  split; [by apply (trimesh_load_ok L _ stl_path f1)|]. split; [exact Htm|].
  assert (Hrun : convert_and_optimize L OUTPUT_DIR model_path task_id disk =
            match export_stl L (mesh (snd (repair L {| mesh := m; calls := [] |}))) with
            | inr f' => (Ret stl_path, <[stl_path := f']> (<[stl_path := f1]> disk))
            | inl e => (Raise e, <[stl_path := empty_file L]> (<[stl_path := f1]> disk))
            end).
  { unfold convert_and_optimize, bind at 1. rewrite Hconv. fold stl_path.
    unfold bind, optimize_mesh, _optimize_mesh_sync, bind.
    rewrite (trimesh_load_ok L _ stl_path f1 _ Hl Hp1), Htm.
    pose proof (repair_returns L {| mesh := m; calls := [] |}) as Hr.
    destruct (repair L {| mesh := m; calls := [] |}) as [r s]. simpl in Hr. subst r.
    unfold export. cbn [snd].
    by destruct (export_stl L (mesh s)). }
  rewrite Hrun. split; [intros f' Hf|intros e Hf]; by rewrite Hf.
Qed.

Lemma pipeline_hands_over_witness :
  let stl_path := joinpath "outputs" ("ab12cd34" ++ "_model.stl")%string in
  exists d1 m,
    convert_to_stl ref_lib "outputs/ab12cd34_model.glb" "outputs" "ab12cd34"
      (<["outputs/ab12cd34_model.glb" := ModelFile (Geom tetra)]> ∅) = (Ret stl_path, d1) /\
    fst (get_status ref_lib "outputs" "ab12cd34" d1) = "completed"%string /\
    (exists r, download_stl ref_lib "outputs" "ab12cd34" d1 = inr r /\
               response_path r = stl_path) /\
    trimesh_load ref_lib stl_path d1 = (Ret (Geom m), d1) /\
    isinstance_Trimesh m = true /\
    (forall f',
       export_stl ref_lib (mesh (snd (repair ref_lib {| mesh := m; calls := [] |}))) = inr f' ->
       convert_and_optimize ref_lib "outputs" "outputs/ab12cd34_model.glb" "ab12cd34"
         (<["outputs/ab12cd34_model.glb" := ModelFile (Geom tetra)]> ∅) =
         (Ret stl_path, <[stl_path := f']> d1)) /\
    (forall e,
       export_stl ref_lib (mesh (snd (repair ref_lib {| mesh := m; calls := [] |}))) = inl e ->
       fst (convert_and_optimize ref_lib "outputs" "outputs/ab12cd34_model.glb" "ab12cd34"
              (<["outputs/ab12cd34_model.glb" := ModelFile (Geom tetra)]> ∅)) = Raise e).
Proof.
  apply (pipeline_hands_over ref_lib "outputs" _ "outputs/ab12cd34_model.glb" "ab12cd34"
           (ModelFile (Geom tetra)) (Geom tetra) tetra (0, 0, 0) (4, 2, 1)).
  - exact ref_lib_stl_round_trip.
  - apply lookup_insert_eq.
  - reflexivity.
  - reflexivity.
  - reflexivity.
  - unfold mesh_valid, tetra; simpl. repeat constructor.
  - vm_compute. reflexivity.
Defined.

(** *** Paths of different tasks *)

Lemma string_length_app (a b : string) :
  String.length (a ++ b) = (String.length a + String.length b)%nat.
Proof. induction a as [|c a IH]; simpl; [reflexivity|]. by rewrite IH. Qed.

Lemma string_app_inv (s1 s2 a b : string) :
  (s1 ++ a = s2 ++ b)%string -> String.length a = String.length b -> s1 = s2 /\ a = b.
Proof.
  revert s2. induction s1 as [|c s1 IH]; intros [|c' s2] H Hl; simpl in H.
  - by split.
  - exfalso. apply (f_equal String.length) in H. simpl in H.
    rewrite ?string_length_app in H. simpl in H. lia.
  - exfalso. apply (f_equal String.length) in H. simpl in H.
    rewrite ?string_length_app in H. simpl in H. lia.
  - injection H as -> H. destruct (IH s2 H Hl) as [-> ->]. by split.
Qed.

Lemma string_app_inv_head (d a b : string) : (d ++ a = d ++ b)%string -> a = b.
Proof. induction d as [|c d IH]; simpl; [done|]. intros [= H]. by apply IH. Qed.

Lemma stl_path_injective (dir t t' : string) :
  joinpath dir (t ++ "_model.stl")%string = joinpath dir (t' ++ "_model.stl")%string ->
  t = t'.
Proof.
  unfold joinpath. intros H. apply string_app_inv_head in H. simpl in H.
  injection H as H. by apply (string_app_inv t t' "_model.stl" "_model.stl").
Qed.

Lemma stl_path_not_glb (dir t t' : string) :
  joinpath dir (t ++ "_model.stl")%string <> joinpath dir (t' ++ "_model.glb")%string.
Proof.
  unfold joinpath. intros H. apply string_app_inv_head in H. simpl in H.
  injection H as H.
  by destruct (string_app_inv t t' "_model.stl" "_model.glb" H eq_refl) as [_ ?].
Qed.

Lemma stl_path_not_png (dir t t' : string) :
  joinpath dir (t ++ "_model.stl")%string <> joinpath dir (t' ++ "_input.png")%string.
Proof.
  unfold joinpath. intros H. apply string_app_inv_head in H. simpl in H.
  injection H as H.
  by destruct (string_app_inv t t' "_model.stl" "_input.png" H eq_refl) as [_ ?].
Qed.

Lemma convert_to_stl_frame (L : Trimesh_lib) (disk : gmap string (File L))
    (model_path output_dir : Path) (task_id : string) (other : Path) :
  other <> joinpath output_dir (task_id ++ "_model.stl")%string ->
  snd (convert_to_stl L model_path output_dir task_id disk) !! other = disk !! other.
Proof.
  intros Hne. unfold convert_to_stl, _convert_to_stl_sync, bind, trimesh_load, lift, export, ret.
  run_service; simpl; try reflexivity; by apply lookup_insert_ne.
Qed.

(** X16.  Tasks whose ids hold no path separator do not step on each
    other: converting the model of one task leaves the status and the
    download of every other task as they were, and leaves the generated
    model and the saved drawing of every task, its own included, on
    disk. *)
Theorem tasks_do_not_interfere (L : Trimesh_lib) (OUTPUT_DIR : Path)
    (disk : gmap string (File L)) (model_path : Path) (task_id other_task any_task : string) :
  has_char "/" task_id = false ->
  has_char "/" other_task = false ->
  has_char "/" any_task = false ->
  other_task <> task_id ->
  let d1 := snd (convert_to_stl L model_path OUTPUT_DIR task_id disk) in
  get_status L OUTPUT_DIR other_task d1 = get_status L OUTPUT_DIR other_task disk /\
  download_stl L OUTPUT_DIR other_task d1 = download_stl L OUTPUT_DIR other_task disk /\
  d1 !! joinpath OUTPUT_DIR (any_task ++ "_model.glb")%string =
    disk !! joinpath OUTPUT_DIR (any_task ++ "_model.glb")%string /\
  d1 !! joinpath OUTPUT_DIR (any_task ++ "_input.png")%string =
    disk !! joinpath OUTPUT_DIR (any_task ++ "_input.png")%string.
Proof.
  intros _ _ _ Hne d1. subst d1.
  assert (Hstl : joinpath OUTPUT_DIR (other_task ++ "_model.stl")%string <>
                 joinpath OUTPUT_DIR (task_id ++ "_model.stl")%string).
  { intros H. by apply Hne, (stl_path_injective OUTPUT_DIR). }
  assert (Hglb : forall t, joinpath OUTPUT_DIR (t ++ "_model.glb")%string <>
                           joinpath OUTPUT_DIR (task_id ++ "_model.stl")%string).
  { intros t H. by apply (stl_path_not_glb OUTPUT_DIR task_id t). }
  assert (Hpng : forall t, joinpath OUTPUT_DIR (t ++ "_input.png")%string <>
                           joinpath OUTPUT_DIR (task_id ++ "_model.stl")%string).
  { intros t H. by apply (stl_path_not_png OUTPUT_DIR task_id t). }
  unfold get_status, download_stl.
  rewrite !(convert_to_stl_frame L disk model_path OUTPUT_DIR task_id _ Hstl).
  rewrite !(convert_to_stl_frame L disk model_path OUTPUT_DIR task_id _ (Hglb _)).
  rewrite !(convert_to_stl_frame L disk model_path OUTPUT_DIR task_id _ (Hpng _)).
  done.
Qed.

Lemma tasks_do_not_interfere_witness :
  let d1 := snd (convert_to_stl ref_lib "outputs/ab12cd34_model.glb" "outputs" "ab12cd34"
                   (<["outputs/ab12cd34_model.glb" := ModelFile (Geom tetra)]> ∅)) in
  get_status ref_lib "outputs" "ffff0000" d1 =
    get_status ref_lib "outputs" "ffff0000"
      (<["outputs/ab12cd34_model.glb" := ModelFile (Geom tetra)]> ∅) /\
  download_stl ref_lib "outputs" "ffff0000" d1 =
    download_stl ref_lib "outputs" "ffff0000"
      (<["outputs/ab12cd34_model.glb" := ModelFile (Geom tetra)]> ∅) /\
  d1 !! joinpath "outputs" ("ab12cd34" ++ "_model.glb")%string =
    (<["outputs/ab12cd34_model.glb" := ModelFile (Geom tetra)]> ∅ : gmap string RefFile)
      !! joinpath "outputs" ("ab12cd34" ++ "_model.glb")%string /\
  d1 !! joinpath "outputs" ("ab12cd34" ++ "_input.png")%string =
    (<["outputs/ab12cd34_model.glb" := ModelFile (Geom tetra)]> ∅ : gmap string RefFile)
      !! joinpath "outputs" ("ab12cd34" ++ "_input.png")%string.
Proof.
  apply (tasks_do_not_interfere ref_lib "outputs" _ "outputs/ab12cd34_model.glb"
           "ab12cd34" "ffff0000" "ab12cd34").
  - reflexivity.
  - reflexivity.
  - reflexivity.
  - discriminate.
Defined.

(** ** Data URLs *)

Lemma split_on_no_sep sep s : has_char sep s = false -> split_on sep s = [s].
Proof.
  induction s as [|c s IH]; simpl; [done|]. intros H.
  apply orb_false_iff in H as [H1 H2]. rewrite H1, (IH H2). reflexivity.
Qed.

Lemma split_on_at_sep sep a b :
  has_char sep a = false ->
  split_on sep (a ++ String sep b) = a :: split_on sep b.
Proof.
  induction a as [|c a IH]; simpl.
  - intros _. by rewrite Ascii.eqb_refl.
  - intros H. apply orb_false_iff in H as [H1 H2]. by rewrite H1, (IH H2).
Qed.

Lemma has_char_app c a b : has_char c (a ++ b) = has_char c a || has_char c b.
Proof. induction a as [|d a IH]; simpl; [done|]. by rewrite IH, orb_assoc. Qed.

Lemma string_app_assoc (a b c : string) : ((a ++ b) ++ c = a ++ (b ++ c))%string.
Proof.
  induction a as [|d a IH]; [done|].
  change (String d ((a ++ b) ++ c) = String d (a ++ (b ++ c)))%string. by rewrite IH.
Qed.

Lemma string_app_nil_r (a : string) : (a ++ "")%string = a.
Proof.
  induction a as [|c a IH]; [done|].
  change (String c (a ++ "")%string = String c a). by rewrite IH.
Qed.

Lemma startswith_app (p x : string) : startswith p (p ++ x)%string = true.
Proof.
  unfold startswith. induction p as [|a p IH]; [by destruct x|].
  change (String a p ++ x)%string with (String a (p ++ x)%string). cbn [String.prefix].
  by destruct (ascii_dec a a).
Qed.

(** X17.  For a data URL, what is handed to the base64 decoder is the text
    between the first comma and the second one, or the end: the prefix is
    dropped, and so is anything after a second comma. *)
Theorem strip_data_url_payload (meta payload rest : string) :
  has_char "," meta = false ->
  has_char "," payload = false ->
  rest = EmptyString \/ (exists r, rest = String "," r) ->
  strip_data_url ("data:image" ++ meta ++ "," ++ payload ++ rest)%string = Ret payload.
Proof.
  intros Hm Hp Hrest. unfold strip_data_url.
  rewrite startswith_app.
  change ("," ++ payload ++ rest)%string with (String "," (payload ++ rest)%string).
  rewrite <- (string_app_assoc "data:image" meta (String "," (payload ++ rest)%string)).
  rewrite split_on_at_sep by (by rewrite has_char_app, Hm).
  destruct Hrest as [->|[r ->]].
  - by rewrite string_app_nil_r, (split_on_no_sep _ _ Hp).
  - by rewrite (split_on_at_sep _ _ _ Hp).
Qed.

Lemma strip_data_url_payload_witness :
  strip_data_url ("data:image" ++ "/png;base64" ++ "," ++ "iVBORw0KGgo=" ++ "")%string =
    Ret "iVBORw0KGgo="%string.
Proof.
  apply (strip_data_url_payload "/png;base64" "iVBORw0KGgo=" "").
  - reflexivity.
  - reflexivity.
  - by left.
Defined.

(** X18.  Text that starts like a data URL but has no comma makes the
    indexing of the split fail with an [IndexError]; text that does not
    start with [data:image] is passed on unchanged. *)
Theorem strip_data_url_edges (image_data : string) :
  (startswith "data:image" image_data = true -> has_char "," image_data = false ->
   strip_data_url image_data = Raise (LibraryError "IndexError" "list index out of range")) /\
  (startswith "data:image" image_data = false -> strip_data_url image_data = Ret image_data).
Proof.
  unfold strip_data_url. split.
  - intros -> Hc. by rewrite (split_on_no_sep _ _ Hc).
  - by intros ->.
Qed.

(** ** Image preparation *)

(** X19.  When the drawing is not square it is pasted wholly inside the
    square canvas, whose side is the longer side of the drawing, and it is
    centred: on each axis the margins before and after it differ by at
    most one pixel. *)
Theorem square_canvas_contains_image (width height : Z) :
  (0 < width)%Z -> (0 < height)%Z ->
  let '(max_side, (ox, oy)) := square_canvas width height in
  (max_side = width \/ max_side = height) /\
  (0 <= ox /\ ox + width <= max_side)%Z /\
  (0 <= oy /\ oy + height <= max_side)%Z /\
  (0 <= (max_side - width - ox) - ox <= 1)%Z /\
  (0 <= (max_side - height - oy) - oy <= 1)%Z /\
  (ox = 0 \/ oy = 0)%Z.
Proof.
  intros Hw Hh. unfold square_canvas. cbv zeta.
  destruct (Z.max_spec width height) as [[Hlt ->]|[Hle ->]];
    rewrite Z.sub_diag; change (0 / 2)%Z with 0%Z;
    repeat split; Z.div_mod_to_equations; lia.
Qed.

Lemma square_canvas_contains_image_witness :
  let '(max_side, (ox, oy)) := square_canvas 300 201 in
  (max_side = 300 \/ max_side = 201)%Z /\
  (0 <= ox /\ ox + 300 <= max_side)%Z /\
  (0 <= oy /\ oy + 201 <= max_side)%Z /\
  (0 <= (max_side - 300 - ox) - ox <= 1)%Z /\
  (0 <= (max_side - 201 - oy) - oy <= 1)%Z /\
  (ox = 0 \/ oy = 0)%Z.
Proof. apply (square_canvas_contains_image 300 201); lia. Defined.

(** X20.  Whatever the size and the aspect ratio of the drawing, the image
    handed to the generator is 512 by 512. *)
Theorem prepared_image_is_512_square (width height : Z) :
  prepared_size width height = (512, 512)%Z.
Proof.
  unfold prepared_size, target_size.
  destruct (Z.eqb_spec width height) as [->|Hne]; cbn [negb fst].
  - destruct (Z.eqb_spec height 512) as [->|]; reflexivity.
  - destruct (Z.eqb_spec (Z.max width height) 512) as [->|]; reflexivity.
Qed.

(** ** The fallback relief *)

Lemma nth_flat_map_chunk {A : Type} (f : nat -> list A) (k : nat) (d : A) :
  (forall i, length (f i) = k) ->
  forall n s i j, (i < n)%nat -> (j < k)%nat ->
    nth (k * i + j) (flat_map f (seq s n)) d = nth j (f (s + i)%nat) d.
Proof.
  intros Hk. induction n as [|n IH]; intros s i j Hi Hj; [lia|].
  cbn [seq flat_map]. destruct i as [|i].
  - rewrite Nat.mul_0_r, Nat.add_0_r. cbn [Nat.add]. apply app_nth1. by rewrite Hk.
  - rewrite app_nth2 by (rewrite Hk; nia). rewrite Hk.
    replace (k * S i + j - k)%nat with (k * i + j)%nat by nia.
    rewrite (IH (S s) i j) by lia. f_equal. f_equal. lia.
Qed.

Lemma length_flat_map_chunk {A : Type} (f : nat -> list A) (k : nat) :
  (forall i, length (f i) = k) ->
  forall n s, length (flat_map f (seq s n)) = (k * n)%nat.
Proof.
  intros Hk. induction n as [|n IH]; intros s; cbn [seq flat_map]; [simpl; lia|].
  rewrite length_app, Hk, IH. lia.
Qed.

Lemma fallback_vertices_length img :
  length (fallback_vertices img) = (2 * img_h img * img_w img)%nat.
Proof.
  unfold fallback_vertices.
  rewrite (length_flat_map_chunk _ (2 * img_w img)).
  - lia.
  - intros y. by rewrite (length_flat_map_chunk _ 2).
Qed.

Lemma fallback_faces_length img :
  length (fallback_faces img) = (2 * (img_h img - 1) * (img_w img - 1))%nat.
Proof.
  unfold fallback_faces.
  rewrite (length_flat_map_chunk _ (2 * (img_w img - 1))).
  - lia.
  - intros y. by rewrite (length_flat_map_chunk _ 2).
Qed.

Lemma fallback_faces_In img f :
  In f (fallback_faces img) <->
  exists y x, (y + 1 < img_h img)%nat /\ (x + 1 < img_w img)%nat /\
              In f (cell_faces (img_w img) y x).
Proof.
  unfold fallback_faces. rewrite in_flat_map. split.
  - intros (y & Hy & Hf). apply in_flat_map in Hf as (x & Hx & Hf).
    apply in_seq in Hy, Hx. exists y, x. repeat split; [lia|lia|exact Hf].
  - intros (y & x & Hy & Hx & Hf). exists y. split; [apply in_seq; lia|].
    apply in_flat_map. exists x. split; [apply in_seq; lia|exact Hf].
Qed.

Lemma fallback_faces_in_range img : mesh_valid (fallback_mesh img).
Proof.
  unfold mesh_valid. cbn [fallback_mesh vertices faces].
  rewrite fallback_vertices_length. apply Forall_forall. intros f Hf.
  apply fallback_faces_In in Hf as (y & x & Hy & Hx & Hf).
  unfold cell_faces in Hf. destruct Hf as [<-|[<-|[]]]; unfold face_ok; nia.
Qed.

(** X21.  The two lists [_fallback_generate] builds and hands to
    [trimesh.Trimesh] are well formed for every image size: the vertex list
    has two entries per pixel, the face list two entries per cell of the
    pixel grid, and every index in the face list is a position of the
    vertex list. *)
Theorem fallback_lists_well_formed (img : GrayImage) :
  length (fallback_vertices img) = (2 * img_h img * img_w img)%nat /\
  length (fallback_faces img) = (2 * (img_h img - 1) * (img_w img - 1))%nat /\
  Forall (face_ok (length (fallback_vertices img))) (fallback_faces img).
Proof.
  split; [apply fallback_vertices_length|]. split; [apply fallback_faces_length|].
  apply (fallback_faces_in_range img).
Qed.

Lemma top_vertex_index img y x :
  (y < img_h img)%nat -> (x < img_w img)%nat ->
  nth ((y * img_w img + x) * 2 + 1) (fallback_vertices img) origin = top_vertex img y x.
Proof.
  intros Hy Hx. unfold fallback_vertices.
  replace ((y * img_w img + x) * 2 + 1)%nat
    with ((2 * img_w img) * y + (2 * x + 1))%nat by lia.
  rewrite (nth_flat_map_chunk _ (2 * img_w img) origin); [|  |exact Hy|lia].
  - cbn [Nat.add]. rewrite (nth_flat_map_chunk _ 2 origin); [reflexivity|done|exact Hx|lia].
  - intros i. by rewrite (length_flat_map_chunk _ 2).
Qed.

Lemma cell_triangles img y x :
  (y + 1 < img_h img)%nat -> (x + 1 < img_w img)%nat ->
  map (triangle_of (fallback_vertices img)) (cell_faces (img_w img) y x) =
    [ (top_vertex img y x, top_vertex img y (x + 1), top_vertex img (y + 1) x);
      (top_vertex img y (x + 1), top_vertex img (y + 1) (x + 1), top_vertex img (y + 1) x) ].
Proof.
  intros Hy Hx. unfold cell_faces. cbn [map triangle_of].
  replace ((y * img_w img + x) * 2 + 3)%nat
    with ((y * img_w img + (x + 1)) * 2 + 1)%nat by lia.
  replace ((y * img_w img + x) * 2 + 2 * img_w img + 1)%nat
    with (((y + 1) * img_w img + x) * 2 + 1)%nat by lia.
  replace ((y * img_w img + x) * 2 + 2 * img_w img + 3)%nat
    with (((y + 1) * img_w img + (x + 1)) * 2 + 1)%nat by lia.
  rewrite !top_vertex_index by lia. reflexivity.
Qed.

(** X22.  Every face of the fallback relief belongs to one cell of the
    pixel grid, and the two faces of a cell join the top vertices of its
    four pixels: the first the pixel, its right and its lower neighbour,
    the second the right, the lower-right and the lower neighbour. *)
Theorem fallback_faces_follow_the_grid (img : GrayImage) (y x : nat) :
  (y + 1 < img_h img)%nat -> (x + 1 < img_w img)%nat ->
  map (triangle_of (fallback_vertices img)) (cell_faces (img_w img) y x) =
    [ (top_vertex img y x, top_vertex img y (x + 1), top_vertex img (y + 1) x);
      (top_vertex img y (x + 1), top_vertex img (y + 1) (x + 1), top_vertex img (y + 1) x) ].
Proof.
  apply cell_triangles.
Qed.

Lemma fallback_faces_follow_the_grid_witness :
  map (triangle_of (fallback_vertices sample_image)) (cell_faces (img_w sample_image) 0 1) =
    [ (top_vertex sample_image 0 1, top_vertex sample_image 0 (1 + 1),
       top_vertex sample_image (0 + 1) 1);
      (top_vertex sample_image 0 (1 + 1), top_vertex sample_image (0 + 1) (1 + 1),
       top_vertex sample_image (0 + 1) 1) ].
Proof. apply (fallback_faces_follow_the_grid sample_image 0 1); simpl; lia. Defined.

(** X23.  No entry of the face list [_fallback_generate] builds refers to a
    bottom vertex of its vertex list: every index in the face list is odd,
    and the bottom vertices have the even positions of the vertex list. *)
Theorem fallback_face_list_is_odd (img : GrayImage) (f : Face) :
  In f (fallback_faces img) ->
  let '(a, b, c) := f in Nat.odd a = true /\ Nat.odd b = true /\ Nat.odd c = true.
Proof.
  intros Hf. apply fallback_faces_In in Hf as (y & x & _ & _ & Hf).
  unfold cell_faces in Hf.
  assert (Hodd : forall n, Nat.odd (2 * n + 1) = true).
  { intros n. rewrite Nat.odd_add, Nat.odd_mul. reflexivity. }
  destruct Hf as [<-|[<-|[]]].
  - replace ((y * img_w img + x) * 2 + 1)%nat with (2 * (y * img_w img + x) + 1)%nat by lia.
    replace ((y * img_w img + x) * 2 + 3)%nat with (2 * (y * img_w img + x + 1) + 1)%nat by lia.
    replace ((y * img_w img + x) * 2 + 2 * img_w img + 1)%nat
      with (2 * (y * img_w img + x + img_w img) + 1)%nat by lia.
    by rewrite !Hodd.
  - replace ((y * img_w img + x) * 2 + 3)%nat with (2 * (y * img_w img + x + 1) + 1)%nat by lia.
    replace ((y * img_w img + x) * 2 + 2 * img_w img + 3)%nat
      with (2 * (y * img_w img + x + img_w img + 1) + 1)%nat by lia.
    replace ((y * img_w img + x) * 2 + 2 * img_w img + 1)%nat
      with (2 * (y * img_w img + x + img_w img) + 1)%nat by lia.
    by rewrite !Hodd.
Qed.

Lemma fallback_face_list_is_odd_witness :
  Nat.odd 3 = true /\ Nat.odd 9 = true /\ Nat.odd 7 = true.
Proof.
  apply (fallback_face_list_is_odd sample_image (3, 9, 7)%nat).
  vm_compute. auto.
Defined.

Lemma fallback_vertices_In img v :
  In v (fallback_vertices img) ->
  exists y x, (y < img_h img)%nat /\ (x < img_w img)%nat /\
              (v = (coord x, coord y, 0) \/ v = top_vertex img y x).
Proof.
  unfold fallback_vertices. intros H. apply in_flat_map in H as (y & Hy & H).
  apply in_flat_map in H as (x & Hx & H). apply in_seq in Hy, Hx.
  exists y, x. split; [lia|]. split; [lia|].
  destruct H as [<-|[<-|[]]]; auto.
Qed.

(** X24.  For pixel values in the range of a byte the relief stays between
    the base plane and [max_height]: every vertex has its height between 0
    and 10, the black pixels at 10 and the white ones at 0. *)
Theorem fallback_heights_bounded (img : GrayImage) :
  (forall y x, (0 <= img_pixel img y x <= 255)%Z) ->
  (forall v, In v (fallback_vertices img) -> 0 <= vz v <= max_height) /\
  (forall y x, img_pixel img y x = 0%Z -> vz (top_vertex img y x) == max_height) /\
  (forall y x, img_pixel img y x = 255%Z -> vz (top_vertex img y x) == 0).
Proof.
  intros Hpx.
  assert (Hh : forall y x, 0 <= height_map img y x * max_height <= max_height).
  { intros y x. unfold height_map, max_height. specialize (Hpx y x).
    assert (H0 : 0 <= inject_Z (img_pixel img y x)).
    { change 0 with (inject_Z 0). rewrite <- Zle_Qle. lia. }
    assert (H1 : inject_Z (img_pixel img y x) <= 255).
    { change 255 with (inject_Z 255). rewrite <- Zle_Qle. lia. }
    set (p := inject_Z (img_pixel img y x)) in *.
    assert (E : (1 - p / 255) * 10 == 10 - p * (10 # 255)) by field.
    rewrite E. split; Lqa.lra. }
  split; [|split].
  - intros v Hv. apply fallback_vertices_In in Hv as (y & x & _ & _ & [->| ->]).
    + cbn [vz snd]. split; [apply Qle_refl|done].
    + unfold top_vertex. cbn [vz snd]. apply Hh.
  - intros y x E. unfold top_vertex, height_map, max_height. cbn [vz snd]. rewrite E. reflexivity.
  - intros y x E. unfold top_vertex, height_map, max_height. cbn [vz snd]. rewrite E. reflexivity.
Qed.

Lemma fallback_heights_bounded_witness :
  (forall v, In v (fallback_vertices sample_image) -> 0 <= vz v <= max_height) /\
  (forall y x, img_pixel sample_image y x = 0%Z ->
               vz (top_vertex sample_image y x) == max_height) /\
  (forall y x, img_pixel sample_image y x = 255%Z -> vz (top_vertex sample_image y x) == 0).
Proof.
  apply (fallback_heights_bounded sample_image).
  intros y x. simpl. destruct (Nat.eqb y 0 && Nat.eqb x 1); lia.
Defined.

(** *** The relief and the converter *)

Lemma bounds_cover g lo hi p :
  bounds g = Some (lo, hi) -> In p (bounded_points g) ->
  vx lo <= vx p <= vx hi /\ vy lo <= vy p <= vy hi /\ vz lo <= vz p <= vz hi.
Proof.
  unfold bounds. destruct (bounded_points g) as [|q qs]; [done|]. intros [= <- <-] Hin.
  unfold min_corner, max_corner. cbn [vx vy vz fst snd].
  repeat split;
    first [ apply qmin_list_lb | apply qmax_list_ub ];
    match goal with
    | |- In (?c p) (?c q :: map ?c qs) => change (In (c p) (map c (q :: qs))); by apply in_map
    end.
Qed.

Lemma first_cell_corners img :
  (2 <= img_h img)%nat -> (2 <= img_w img)%nat ->
  In (top_vertex img 0 0) (bounded_points (fallback_mesh img)) /\
  In (top_vertex img 0 1) (bounded_points (fallback_mesh img)).
Proof.
  intros Hh Hw.
  assert (Hcell : In (top_vertex img 0 0, top_vertex img 0 (0 + 1), top_vertex img (0 + 1) 0)
                     (triangles (fallback_mesh img))).
  { unfold triangles. cbn [fallback_mesh vertices faces].
    apply in_map_iff. exists ((0 * img_w img + 0) * 2 + 1, (0 * img_w img + 0) * 2 + 3,
                              (0 * img_w img + 0) * 2 + 2 * img_w img + 1)%nat.
    split.
    - assert (Hy : (0 + 1 < img_h img)%nat) by lia.
      assert (Hx : (0 + 1 < img_w img)%nat) by lia.
      pose proof (cell_triangles img 0 0 Hy Hx) as H.
      unfold cell_faces in H. cbn [map] in H.
      exact (f_equal (fun l => nth 0 l (origin, origin, origin)) H).
    - apply fallback_faces_In. exists 0%nat, 0%nat. repeat split; [lia|lia|]. by left. }
  split; apply (bounded_points_corners (fallback_mesh img) _ eq_refl
                  (fallback_faces_in_range img));
    apply in_flat_map; eexists; (split; [exact Hcell|]); simpl; auto.
Qed.

(** X25.  The relief of an image of at least two rows and two columns is
    never degenerate for the converter: it has a bounding box of positive
    extent, so the conversion scales it to the print size. *)
Theorem fallback_relief_is_scaled (img : GrayImage) :
  (2 <= img_h img)%nat -> (2 <= img_w img)%nat ->
  exists lo hi,
    bounds (fallback_mesh img) = Some (lo, hi) /\
    relief_scale <= np_max (vsub hi lo) /\
    scale_to_print_size (fallback_mesh img) =
      Ret (apply_scale (50 / np_max (vsub hi lo)) (fallback_mesh img)).
Proof.
  intros Hh Hw. destruct (first_cell_corners img Hh Hw) as [H0 H1].
  destruct (bounds (fallback_mesh img)) as [[lo hi]|] eqn:Hb.
  - exists lo, hi. split; [reflexivity|].
    destruct (bounds_cover _ lo hi _ Hb H0) as ((L0 & _) & _).
    destruct (bounds_cover _ lo hi _ Hb H1) as ((_ & U1) & _).
    unfold top_vertex, coord, relief_scale in *. cbn [vx fst] in L0, U1.
    change (inject_Z (Z.of_nat 0)) with 0 in L0.
    change (inject_Z (Z.of_nat 1)) with 1 in U1.
    assert (Hx : (1 # 10) <= vx hi - vx lo) by Lqa.lra.
    assert (Hm : (1 # 10) <= np_max (vsub hi lo)).
    { eapply Qle_trans; [exact Hx|]. unfold np_max, vsub. cbn [vx vy vz fst snd].
      eapply Qle_trans; [|apply Q.le_max_l]. apply Q.le_max_l. }
    split; [exact Hm|].
    unfold scale_to_print_size. rewrite Hb.
    destruct (Qlt_le_dec 0 (np_max (vsub hi lo))) as [_|Hle]; [reflexivity|].
    exfalso. Lqa.lra.
  - exfalso. unfold bounds in Hb.
    destruct (bounded_points (fallback_mesh img)); [destruct H0|done].
Qed.

Lemma fallback_relief_is_scaled_witness :
  exists lo hi,
    bounds (fallback_mesh sample_image) = Some (lo, hi) /\
    relief_scale <= np_max (vsub hi lo) /\
    scale_to_print_size (fallback_mesh sample_image) =
      Ret (apply_scale (50 / np_max (vsub hi lo)) (fallback_mesh sample_image)).
Proof. apply (fallback_relief_is_scaled sample_image); simpl; lia. Defined.
